(** * vp8/decode.go: the bounded reader, the frame-header parser and the
      frame-buffer allocator of the VP8 decoder.

    Integers follow the Go types: [uint8], [uint32] and [int] values are
    carried in [Z]; the only operations that could leave the width of their
    type are the left shifts on [uint32], which are wrapped explicitly.
    Bytes are [Byte.byte], read as numbers through [byte.unsigned]. *)

From Stdlib Require Import ZArith List Lia Bool Btauto.
From Stdlib Require String.
From coqutil Require Import Byte Z.bitblast.
Import ListNotations.
Local Open Scope Z_scope.

(** ** The pieces of the Go library that decode.go calls *)

(** [os.Error] values: [os.EOF], [io.ErrUnexpectedEOF], and the errors made
    by [os.NewError]. A nil error is [None]. *)
Inductive Error : Type :=
| os_EOF
| io_ErrUnexpectedEOF
| os_NewError (msg : String.string).

(** The text of the error that a bad sync code raises. *)
Module Import messages.
Import String.
Definition invalid_format : string := "vp8: invalid format"%string.
End messages.

(** An [io.Reader] over a finite byte stream: the state is the bytes not yet
    consumed (a [bytes.Buffer], a file, a network body read to its end). *)
Definition Reader : Type := list byte.

(** [io.ReadFull(r, p)], as the io package documents it: it reads exactly
    [len(p)] bytes; it returns the number of bytes copied and an error if
    fewer were read; the error is [os.EOF] only if no bytes were read, and
    [io.ErrUnexpectedEOF] if the stream ends after some but not all of them.
    The result is the new contents of [p], the count, the error, and the
    reader after the call. *)
Definition io_ReadFull (r : Reader) (p : list byte)
  : list byte * Z * option Error * Reader :=
  let got := firstn (length p) r in
  let k := length got in
  let err :=
    if (k =? length p)%nat then None
    else if (k =? 0)%nat then Some os_EOF
    else Some io_ErrUnexpectedEOF in
  (got ++ skipn k p, Z.of_nat k, err, skipn k r).

(** [image.Point], [image.Rectangle], and [image.Rect], which puts the
    corners in order. *)
Module image.
Record Point : Type := { X : Z; Y : Z }.
Record Rectangle : Type := { Min : Point; Max : Point }.

Definition Rect (x0 y0 x1 y1 : Z) : Rectangle :=
  let '(x0, x1) := if x1 <? x0 then (x1, x0) else (x0, x1) in
  let '(y0, y1) := if y1 <? y0 then (y1, y0) else (y0, y1) in
  {| Min := {| X := x0; Y := y0 |}; Max := {| X := x1; Y := y1 |} |}.
End image.

(** Byte slices that share a backing array. The store holds every array
    that [make] has allocated for a frame buffer, oldest first; a slice is
    a window of one of them. *)
Definition Store : Type := list (list byte).

Record Slice : Type := {
  arr : nat;   (* which backing array *)
  off : Z;     (* where the window starts in it *)
  len : Z;
  cap : Z
}.

(** [make([]uint8, n)]: a fresh zeroed array; a negative length panics
    ([None]). *)
Definition make (st : Store) (n : Z) : option (Store * Slice) :=
  if n <? 0 then None
  else Some (st ++ [repeat Byte.x00 (Z.to_nat n)],
             {| arr := length st; off := 0; len := n; cap := n |}).

(** [s[i:j]]: panics ([None]) unless [0 <= i <= j <= cap(s)]. *)
Definition reslice (s : Slice) (i j : Z) : option Slice :=
  if (0 <=? i) && (i <=? j) && (j <=? cap s)
  then Some {| arr := arr s; off := off s + i; len := j - i; cap := cap s - i |}
  else None.

(** The bytes a slice shows. *)
Definition contents (st : Store) (s : Slice) : list byte :=
  firstn (Z.to_nat (len s)) (skipn (Z.to_nat (off s)) (nth (arr s) st [])).

(** [ycbcr.YCbCr] *)
Module ycbcr.
Inductive SubsampleRatio : Type :=
| SubsampleRatio444
| SubsampleRatio422
| SubsampleRatio420.

Record YCbCr : Type := {
  Y : Slice;
  Cb : Slice;
  Cr : Slice;
  SubsampleRatio_ : SubsampleRatio;
  YStride : Z;
  CStride : Z;
  Rect : image.Rectangle
}.
End ycbcr.

(** ** limitReader *)

(** [limitReader] wraps an [io.Reader] to read at most [n] bytes from it. *)
Module limitReader.
Record t : Type := { r : Reader; n : Z }.

(** [ReadFull] reads exactly [len(p)] bytes into [p]. The result is the
    new contents of [p], the error, and the reader after the call. *)
Definition ReadFull (lr : t) (p : list byte)
  : list byte * option Error * t :=
  if n lr <? Z.of_nat (length p) then (p, Some io_ErrUnexpectedEOF, lr)
  else
    let '(p', k, err, src) := io_ReadFull (r lr) p in
    (p', err, {| r := src; n := n lr - k |}).
End limitReader.

(** ** FrameHeader *)

Record FrameHeader : Type := {
  KeyFrame : bool;
  VersionNumber : Z;
  ShowFrame : bool;
  FirstPartitionLen : Z;
  Width : Z;
  Height : Z;
  XScale : Z;
  YScale : Z
}.

(** The zero value of [FrameHeader]: what the named result [fh] holds when
    [DecodeFrameHeader] returns before assigning it. *)
Definition FrameHeader_zero : FrameHeader :=
  {| KeyFrame := false; VersionNumber := 0; ShowFrame := false;
     FirstPartitionLen := 0; Width := 0; Height := 0;
     XScale := 0; YScale := 0 |}.

(** Wrap-around of [uint32] arithmetic. *)
Definition uint32 (z : Z) : Z := z mod 2 ^ 32.

(** [b[i]] on a byte slice, as a number. The slices indexed in decode.go
    have the constant lengths 3 and 7 and constant indices below them. *)
Definition at_ (b : list byte) (i : nat) : Z :=
  byte.unsigned (nth i b Byte.x00).

(** The fixed-size array [scratch [10]byte], as its index-to-byte map, with
    the slice [scratch[:k]] and the write through such a slice. *)
Definition Scratch : Type := nat -> byte.
Definition Scratch_zero : Scratch := fun _ => Byte.x00.
Definition scratch_to (s : Scratch) (k : nat) : list byte := map s (seq 0 k).
Definition scratch_store (s : Scratch) (p : list byte) : Scratch :=
  fun i => nth i p (s i).

(** ** partition

    The file that defines the [partition] type, partition.go, is not among
    the source files. decode.go uses three
    operations of the [partition] type and one constant; the decoder is
    stated over any implementation of them. *)
Module partition.
Class ops (partition : Type) : Type := {
  zero : partition;
  init : partition -> list byte -> partition;
  readUint : partition -> Z -> Z -> Z * partition;
  unexpectedEOF : partition -> bool
}.
End partition.

(** Modelled from the spec: the constant [uniformProb] of partition.go,
    "a fixed uniform probability (128, representing an unbiased 50/50
    bit)". *)
Definition uniformProb : Z := 128.

(** ** Decoder *)

Section Decoder.
Context {partition : Type} {partition_ops : partition.ops partition}.

Record Decoder : Type := {
  r : limitReader.t;
  img : option ycbcr.YCbCr;   (* [*ycbcr.YCbCr]; [None] is nil *)
  mbw : Z;
  mbh : Z;
  frameHeader : FrameHeader;
  fp : partition;
  op : list partition;
  scratch : Scratch
}.

Definition set_r (d : Decoder) (x : limitReader.t) : Decoder :=
  {| r := x; img := img d; mbw := mbw d; mbh := mbh d;
     frameHeader := frameHeader d; fp := fp d; op := op d;
     scratch := scratch d |}.
Definition set_img (d : Decoder) (x : option ycbcr.YCbCr) : Decoder :=
  {| r := r d; img := x; mbw := mbw d; mbh := mbh d;
     frameHeader := frameHeader d; fp := fp d; op := op d;
     scratch := scratch d |}.
Definition set_mb (d : Decoder) (w h : Z) : Decoder :=
  {| r := r d; img := img d; mbw := w; mbh := h;
     frameHeader := frameHeader d; fp := fp d; op := op d;
     scratch := scratch d |}.
Definition set_frameHeader (d : Decoder) (x : FrameHeader) : Decoder :=
  {| r := r d; img := img d; mbw := mbw d; mbh := mbh d;
     frameHeader := x; fp := fp d; op := op d; scratch := scratch d |}.
Definition set_fp (d : Decoder) (x : partition) : Decoder :=
  {| r := r d; img := img d; mbw := mbw d; mbh := mbh d;
     frameHeader := frameHeader d; fp := x; op := op d;
     scratch := scratch d |}.
Definition set_scratch (d : Decoder) (x : Scratch) : Decoder :=
  {| r := r d; img := img d; mbw := mbw d; mbh := mbh d;
     frameHeader := frameHeader d; fp := fp d; op := op d; scratch := x |}.

(** [NewDecoder] returns a new Decoder: the zero value of the struct. *)
Definition NewDecoder : Decoder :=
  {| r := {| limitReader.r := []; limitReader.n := 0 |};
     img := None; mbw := 0; mbh := 0;
     frameHeader := FrameHeader_zero;
     fp := partition.zero; op := repeat partition.zero 8;
     scratch := Scratch_zero |}.

(** [Init] initializes the decoder to read at most [n] bytes from [src]. *)
Definition Init (d : Decoder) (src : Reader) (n : Z) : Decoder :=
  set_r d {| limitReader.r := src; limitReader.n := n |}.

(** [d.r.ReadFull(d.scratch[:k])]: the bytes land in the scratch array. *)
Definition read_scratch (d : Decoder) (k : nat)
  : list byte * option Error * Decoder :=
  let '(b, err, lr) := limitReader.ReadFull (r d) (scratch_to (scratch d) k) in
  (b, err, set_scratch (set_r d lr) (scratch_store (scratch d) b)).

(** [DecodeFrameHeader] decodes the frame header. *)
Definition DecodeFrameHeader (d : Decoder)
  : FrameHeader * option Error * Decoder :=
  (* All frame headers are at least 3 bytes long. *)
  let '(b, err, d) := read_scratch d 3 in
  match err with
  | Some e => (FrameHeader_zero, Some e, d)
  | None =>
    let fh :=
      {| KeyFrame := Z.land (at_ b 0) 1 =? 0;
         VersionNumber := Z.land (Z.shiftr (at_ b 0) 1) 7;
         ShowFrame := Z.land (Z.shiftr (at_ b 0) 4) 1 =? 1;
         FirstPartitionLen :=
           Z.lor (Z.lor (Z.shiftr (at_ b 0) 5)
                        (uint32 (Z.shiftl (at_ b 1) 3)))
                 (uint32 (Z.shiftl (at_ b 2) 11));
         Width := Width (frameHeader d);
         Height := Height (frameHeader d);
         XScale := XScale (frameHeader d);
         YScale := YScale (frameHeader d) |} in
    let d := set_frameHeader d fh in
    if negb (KeyFrame fh) then (fh, None, d)
    else
      (* Frame headers for key frames are an additional 7 bytes long. *)
      let '(b, err, d) := read_scratch d 7 in
      match err with
      | Some e => (FrameHeader_zero, Some e, d)
      | None =>
        (* Check the magic sync code. *)
        if negb (at_ b 0 =? 0x9d) || negb (at_ b 1 =? 0x01)
           || negb (at_ b 2 =? 0x2a)
        then (FrameHeader_zero, Some (os_NewError invalid_format), d)
        else
          let fh :=
            {| KeyFrame := KeyFrame fh;
               VersionNumber := VersionNumber fh;
               ShowFrame := ShowFrame fh;
               FirstPartitionLen := FirstPartitionLen fh;
               Width := Z.lor (Z.shiftl (Z.land (at_ b 4) 0x3f) 8) (at_ b 3);
               Height := Z.lor (Z.shiftl (Z.land (at_ b 6) 0x3f) 8) (at_ b 5);
               XScale := Z.shiftr (at_ b 4) 6;
               YScale := Z.shiftr (at_ b 6) 6 |} in
          let d := set_frameHeader d fh in
          let d := set_mb d (Z.shiftr (Width fh + 0x0f) 4)
                            (Z.shiftr (Height fh + 0x0f) 4) in
          (frameHeader d, None, d)
      end
  end.

(** The test that opens [ensureImg]: there is an image, and its
    rectangle starts at the origin and reaches [16*mbw] by [16*mbh]. *)
Definition covers (d : Decoder) : bool :=
  match img d with
  | Some m =>
    let p0 := image.Min (ycbcr.Rect m) in
    let p1 := image.Max (ycbcr.Rect m) in
    (image.X p0 =? 0) && (image.Y p0 =? 0)
    && (16 * mbw d <=? image.X p1) && (16 * mbh d <=? image.Y p1)
  | None => false
  end.

(** [ensureImg] ensures that [d.img] is large enough to hold the decoded
    frame. [None] is a panic of [make] or of a slice expression. *)
Definition ensureImg (st : Store) (d : Decoder) : option (Store * Decoder) :=
  if covers d then Some (st, d)
  else
    let n := mbw d * mbh d in
    (* VP8 always uses 4:2:0 chroma subsampling, so each macroblock
       consists of 1x16x16 luma samples and 2x8x8 chroma samples. *)
    match make st (n * (1*16*16 + 2*8*8)) with
    | None => None
    | Some (st, buf) =>
      match reslice buf (n * (0*16*16 + 0*8*8)) (n * (1*16*16 + 0*8*8)),
            reslice buf (n * (1*16*16 + 0*8*8)) (n * (1*16*16 + 1*8*8)),
            reslice buf (n * (1*16*16 + 1*8*8)) (n * (1*16*16 + 2*8*8)) with
      | Some y, Some cb, Some cr =>
        Some (st, set_img d (Some
          {| ycbcr.Y := y; ycbcr.Cb := cb; ycbcr.Cr := cr;
             ycbcr.SubsampleRatio_ := ycbcr.SubsampleRatio420;
             ycbcr.YStride := mbw d * 16;
             ycbcr.CStride := mbw d * 8;
             ycbcr.Rect := image.Rect 0 0 (Width (frameHeader d))
                                          (Height (frameHeader d)) |}))
      | _, _, _ => None
      end
    end.

(** [parseOtherHeaders] parses header information other than the frame
    header. *)
Definition parseOtherHeaders (d : Decoder) : option Error * Decoder :=
  (* Initialize and parse the first partition. *)
  let firstPartition :=
    repeat Byte.x00 (Z.to_nat (FirstPartitionLen (frameHeader d))) in
  let '(firstPartition, err, lr) :=
    limitReader.ReadFull (r d) firstPartition in
  let d := set_r d lr in
  match err with
  | Some e => (Some e, d)
  | None =>
    let d := set_fp d (partition.init (fp d) firstPartition) in
    let d :=
      if KeyFrame (frameHeader d) then
        (* Read and ignore the color space and pixel clamp values. *)
        let d := set_fp d (snd (partition.readUint (fp d) uniformProb 1)) in
        set_fp d (snd (partition.readUint (fp d) uniformProb 1))
      else d in
    if partition.unexpectedEOF (fp d) then (Some io_ErrUnexpectedEOF, d)
    else (None, d)
  end.

(** [DecodeFrame] decodes the frame and returns it as an YCbCr image.
    [None] is a panic. *)
Definition DecodeFrame (st : Store) (d : Decoder)
  : option (option ycbcr.YCbCr * option Error * Store * Decoder) :=
  match ensureImg st d with
  | None => None
  | Some (st, d) =>
    match parseOtherHeaders d with
    | (Some e, d) => Some (None, Some e, st, d)
    | (None, d) => Some (img d, None, st, d)
    end
  end.
End Decoder.

Arguments Decoder partition : clear implicits.

(** ** A boolean decoder for the partition interface *)

(** Modelled from the spec: the [partition] type of partition.go (the
    spec's BooleanDecoder), which is not among the source files. Its
    state is the byte buffer, the read cursor (byte offset, value register
    and bit count), the range register and the sticky [exhausted] flag.
    [init] "resets range/value registers to their start-of-partition values
    and clears exhausted"; [readBool] compares the value against a split
    point derived from the probability and the range, selects the branch
    and renormalizes, pulling one byte at a time with bit counting; a read
    past the end of the buffer takes zero bits and sets [exhausted];
    [readUint] decodes its bits most-significant-first. *)
Module BoolDecoder.
Record t : Type := {
  buf : list byte;
  pos : nat;          (* byte offset of the next unread byte *)
  range : Z;          (* 128..255 between reads *)
  value : Z;          (* the [nBits] bits read and not yet consumed *)
  nBits : Z;
  exhausted : bool
}.

Definition zero : t :=
  {| buf := []; pos := 0; range := 0; value := 0; nBits := 0;
     exhausted := false |}.

Definition init (_ : t) (bytes : list byte) : t :=
  {| buf := bytes; pos := 0; range := 255; value := 0; nBits := 0;
     exhausted := false |}.

(** Shift one more byte into the value register; a missing byte is zero
    and sets [exhausted]. *)
Definition fill (p : t) : t :=
  match nth_error (buf p) (pos p) with
  | Some x =>
    {| buf := buf p; pos := S (pos p); range := range p;
       value := value p * 256 + byte.unsigned x; nBits := nBits p + 8;
       exhausted := exhausted p |}
  | None =>
    {| buf := buf p; pos := pos p; range := range p;
       value := value p * 256; nBits := nBits p + 8;
       exhausted := true |}
  end.

(** Double the range until it is back at 128 or above; each doubling
    consumes one bit of the value register. *)
Fixpoint renormalize (fuel : nat) (p : t) : t :=
  match fuel with
  | O => p
  | S fuel =>
    if range p <? 128 then
      renormalize fuel
        {| buf := buf p; pos := pos p; range := 2 * range p;
           value := value p; nBits := nBits p - 1;
           exhausted := exhausted p |}
    else p
  end.

Definition readBool (p : t) (prob : Z) : bool * t :=
  let p := if nBits p <? 8 then fill p else p in
  let split := 1 + Z.shiftr ((range p - 1) * prob) 8 in
  let bigsplit := Z.shiftl split (nBits p - 8) in
  let bit := bigsplit <=? value p in
  let p :=
    if bit then
      {| buf := buf p; pos := pos p; range := range p - split;
         value := value p - bigsplit; nBits := nBits p;
         exhausted := exhausted p |}
    else
      {| buf := buf p; pos := pos p; range := split;
         value := value p; nBits := nBits p;
         exhausted := exhausted p |} in
  (bit, renormalize 7 p).

Definition readFlag (p : t) : bool * t := readBool p uniformProb.

Fixpoint readUint_loop (k : nat) (prob : Z) (acc : Z) (p : t) : Z * t :=
  match k with
  | O => (acc, p)
  | S k =>
    let '(bit, p) := readBool p prob in
    readUint_loop k prob (2 * acc + (if bit then 1 else 0)) p
  end.

Definition readUint (p : t) (prob n : Z) : Z * t :=
  readUint_loop (Z.to_nat n) prob 0 p.
End BoolDecoder.

#[export] Instance BoolDecoder_ops : partition.ops BoolDecoder.t :=
  {| partition.zero := BoolDecoder.zero;
     partition.init := BoolDecoder.init;
     partition.readUint := BoolDecoder.readUint;
     partition.unexpectedEOF := BoolDecoder.exhausted |}.

(** A second implementation of the interface that wraps any other and
    records the calls made on it, oldest first. *)
Module Logged.
Inductive call : Type :=
| call_init (bytes : list byte)
| call_readUint (prob n : Z).

Definition is_readUint (c : call) : bool :=
  match c with call_readUint _ _ => true | call_init _ => false end.

Record t (P : Type) : Type := { inner : P; log : list call }.
Arguments inner {P}.
Arguments log {P}.
End Logged.

#[export] Instance Logged_ops {P : Type} `{partition.ops P}
  : partition.ops (Logged.t P) :=
  {| partition.zero := {| Logged.inner := partition.zero; Logged.log := [] |};
     partition.init p bytes :=
       {| Logged.inner := partition.init (Logged.inner p) bytes;
          Logged.log := Logged.log p ++ [Logged.call_init bytes] |};
     partition.readUint p prob n :=
       let '(v, q) := partition.readUint (Logged.inner p) prob n in
       (v, {| Logged.inner := q;
              Logged.log := Logged.log p ++ [Logged.call_readUint prob n] |});
     partition.unexpectedEOF p := partition.unexpectedEOF (Logged.inner p) |}.


(** * Notions and sample inputs used in the statements *)

(** What a reader can still deliver: the smaller of its budget and of the
    bytes left in its source. *)
Definition avail (lr : limitReader.t) : Z :=
  Z.min (limitReader.n lr) (Z.of_nat (length (limitReader.r lr))).

(** The little-endian number that a run of bytes spells. *)
Fixpoint le_word (bs : list byte) : Z :=
  match bs with
  | [] => 0
  | b :: bs => byte.unsigned b + 2 ^ 8 * le_word bs
  end.

(** The header on the wire announces a key frame: bit 0 of byte 0 is 0. *)
Definition is_key (src : list byte) : bool :=
  negb (Z.testbit (at_ src 0) 0).

(** Bytes 3-5 of the header are the sync code 0x9d 0x01 0x2a. *)
Definition sync_ok (src : list byte) : bool :=
  (at_ src 3 =? 0x9d) && (at_ src 4 =? 0x01) && (at_ src 5 =? 0x2a).

(** The error [DecodeFrameHeader] must end in, read off the budget and the
    source: the first read needs 3 bytes, the second, for key frames
    only, 7 more; a read beyond the budget, or one that the source ends
    in the middle of, is [io.ErrUnexpectedEOF]; a read that finds the
    source already at its end is [os.EOF]. *)
Definition header_error (lr : limitReader.t) : option Error :=
  let src := limitReader.r lr in
  let n := limitReader.n lr in
  let have := Z.of_nat (length src) in
  if n <? 3 then Some io_ErrUnexpectedEOF
  else if have =? 0 then Some os_EOF
  else if have <? 3 then Some io_ErrUnexpectedEOF
  else if negb (is_key src) then None
  else if n <? 10 then Some io_ErrUnexpectedEOF
  else if have =? 3 then Some os_EOF
  else if have <? 10 then Some io_ErrUnexpectedEOF
  else if sync_ok src then None
  else Some (os_NewError invalid_format).

(** A decoder over the boolean decoder above, fresh from [NewDecoder] and
    bound to a source and a budget. *)
Definition fresh (src : Reader) (n : Z) : Decoder BoolDecoder.t :=
  Init NewDecoder src n.

(** A key-frame header for a 176x144 picture with scale 0, and one whose
    sync code is damaged. *)
Definition key_176x144 : list byte :=
  [Byte.x10; Byte.x00; Byte.x00; Byte.x9d; Byte.x01; Byte.x2a;
   Byte.xb0; Byte.x00; Byte.x90; Byte.x00].

Definition key_bad_sync : list byte :=
  [Byte.x10; Byte.x00; Byte.x00; Byte.x9d; Byte.x01; Byte.x2b;
   Byte.xb0; Byte.x00; Byte.x90; Byte.x00].

(** The decoder after the 176x144 key frame, bound to the next frame. *)
Definition after_key_176x144 (src : Reader) (n : Z) : Decoder BoolDecoder.t :=
  Init (snd (DecodeFrameHeader (fresh key_176x144 10))) src n.

(** What [DecodeFrameHeader] maintains between calls: the stored size is a
    14-bit one and the macroblock grid is that size over 16, rounded up. *)
Definition geometry_ok {partition : Type} (d : Decoder partition) : Prop :=
  0 <= Width (frameHeader d) < 2 ^ 14
  /\ 0 <= Height (frameHeader d) < 2 ^ 14
  /\ mbw d = Z.shiftr (Width (frameHeader d) + 0x0f) 4
  /\ mbh d = Z.shiftr (Height (frameHeader d) + 0x0f) 4.

(** A key-frame header for a 100x100 picture, whose size is not a
    multiple of 16, and the decoder that has read it. *)
Definition key_100x100 : list byte :=
  [Byte.x10; Byte.x00; Byte.x00; Byte.x9d; Byte.x01; Byte.x2a;
   Byte.x64; Byte.x00; Byte.x64; Byte.x00].

Definition after_key_100x100 : Decoder BoolDecoder.t :=
  snd (DecodeFrameHeader (fresh key_100x100 10)).

(** The backing array of the image the decoder holds, if it holds one. *)
Definition buffer_of {partition : Type} (d : Decoder partition) : option nat :=
  option_map (fun m => arr (ycbcr.Y m)) (img d).

(** What two calls of [ensureImg] in a row leave behind: the number of
    arrays allocated and the array of the luma plane, after each call. *)
Definition ensureImg_twice {partition : Type}
    `{partition.ops partition} (st : Store) (d : Decoder partition)
  : option ((nat * option nat) * (nat * option nat)) :=
  match ensureImg st d with
  | None => None
  | Some (st1, d1) =>
    match ensureImg st1 d1 with
    | None => None
    | Some (st2, d2) =>
      Some ((length st1, buffer_of d1), (length st2, buffer_of d2))
    end
  end.

(** An interframe header that declares a first partition of 5 bytes, in a
    stream that ends right after it. *)
Definition inter_len5 : list byte := [Byte.xa1; Byte.x00; Byte.x00].

Definition after_inter_len5 : Decoder BoolDecoder.t :=
  snd (DecodeFrameHeader (fresh inter_len5 100)).

(** What [DecodeFrame] hands back to its caller. *)
Definition returned {partition : Type}
    (res : option (option ycbcr.YCbCr * option Error * Store
                   * Decoder partition))
  : option (option ycbcr.YCbCr * option Error) :=
  option_map (fun x => fst (fst x)) res.

(** The reads that follow [init]: two one-bit reads at the uniform
    probability for a key frame, none otherwise. *)
Definition flag_reads (key : bool) : list Logged.call :=
  if key
  then [Logged.call_readUint uniformProb 1; Logged.call_readUint uniformProb 1]
  else [].

Definition count_reads (l : list Logged.call) : nat :=
  length (filter Logged.is_readUint l).

(** A key frame that declares a first partition of 2 bytes, followed by
    those bytes, read by a decoder whose partition logs its calls. *)
Definition key_len2 : list byte :=
  [Byte.x40; Byte.x00; Byte.x00; Byte.x9d; Byte.x01; Byte.x2a;
   Byte.xb0; Byte.x00; Byte.x90; Byte.x00; Byte.xff; Byte.x01].

Definition after_key_len2 : Decoder (Logged.t BoolDecoder.t) :=
  snd (DecodeFrameHeader (Init NewDecoder key_len2 12)).

(** Key-frame headers for a 100x1000 and then a 100x16 picture, and what
    the store and the decoder look like after the header and [ensureImg]
    of each in turn: the sizes of the arrays allocated and the array the
    image ends in. *)
Definition key_100x1000 : list byte :=
  [Byte.x10; Byte.x00; Byte.x00; Byte.x9d; Byte.x01; Byte.x2a;
   Byte.x64; Byte.x00; Byte.xe8; Byte.x03].

Definition key_100x16 : list byte :=
  [Byte.x10; Byte.x00; Byte.x00; Byte.x9d; Byte.x01; Byte.x2a;
   Byte.x64; Byte.x00; Byte.x10; Byte.x00].

Definition tall_then_short : option (list Z * option nat) :=
  match ensureImg [] (snd (DecodeFrameHeader (fresh key_100x1000 10))) with
  | None => None
  | Some (st1, d1) =>
    match ensureImg st1 (snd (DecodeFrameHeader (Init d1 key_100x16 10))) with
    | None => None
    | Some (st2, d2) =>
      Some (map (fun a => Z.of_nat (length a)) st2, buffer_of d2)
    end
  end.

(** * Notions used in the further properties *)

(** Reader [lr'] is reader [lr] after [k] bytes were taken from the front
    of its source and charged to its budget; no more bytes are taken than
    the source has or than a budget of at least zero allows. *)
Definition advanced (lr lr' : limitReader.t) (k : nat) : Prop :=
  limitReader.r lr' = skipn k (limitReader.r lr)
  /\ limitReader.n lr' = limitReader.n lr - Z.of_nat k
  /\ (k <= length (limitReader.r lr))%nat
  /\ Z.of_nat k <= Z.max 0 (limitReader.n lr).

(** The number of bytes a call of [DecodeFrameHeader] takes from the
    source, read off the budget and the source: nothing when the budget is
    below 3; what is left when fewer than 3 bytes are left; 3 for a frame
    that is not a key frame, or for a key frame whose budget is below 10;
    otherwise 10, or what is left of the source if that is less. *)
Definition header_consumed (lr : limitReader.t) : nat :=
  let src := limitReader.r lr in
  let n := limitReader.n lr in
  if n <? 3 then 0%nat
  else if (length src <? 3)%nat then length src
  else if negb (is_key src) then 3%nat
  else if n <? 10 then 3%nat
  else Nat.min (length src) 10.

(** The ranges of the header fields: a 3-bit version, a 19-bit length,
    14-bit sizes and 2-bit scales. *)
Definition fields_ok (h : FrameHeader) : Prop :=
  0 <= VersionNumber h <= 7
  /\ 0 <= FirstPartitionLen h < 2 ^ 19
  /\ 0 <= Width h < 2 ^ 14
  /\ 0 <= Height h < 2 ^ 14
  /\ 0 <= XScale h <= 3
  /\ 0 <= YScale h <= 3.

(** An image as [ensureImg] builds them, for some grid of [w] by [h]
    macroblocks: its planes are the three consecutive windows of one array
    of the store, which holds zeros; its strides are those of the grid; and
    its rectangle starts at the origin and stays within the grid. *)
Definition image_ok (st : Store) (m : ycbcr.YCbCr) : Prop :=
  exists w h,
    0 <= w /\ 0 <= h
    /\ ycbcr.YStride m = 16 * w /\ ycbcr.CStride m = 8 * w
    /\ len (ycbcr.Y m) = 256 * (w * h)
    /\ len (ycbcr.Cb m) = 64 * (w * h)
    /\ len (ycbcr.Cr m) = 64 * (w * h)
    /\ off (ycbcr.Y m) = 0
    /\ off (ycbcr.Cb m) = 256 * (w * h)
    /\ off (ycbcr.Cr m) = 320 * (w * h)
    /\ arr (ycbcr.Cb m) = arr (ycbcr.Y m)
    /\ arr (ycbcr.Cr m) = arr (ycbcr.Y m)
    /\ nth_error st (arr (ycbcr.Y m))
       = Some (repeat Byte.x00 (Z.to_nat (384 * (w * h))))
    /\ image.Min (ycbcr.Rect m) = {| image.X := 0; image.Y := 0 |}
    /\ 0 <= image.X (image.Max (ycbcr.Rect m)) <= 16 * w
    /\ 0 <= image.Y (image.Max (ycbcr.Rect m)) <= 16 * h.

(** What holds of a decoder and its store between calls. *)
Definition decoder_ok {partition : Type} (st : Store) (d : Decoder partition)
  : Prop :=
  fields_ok (frameHeader d)
  /\ geometry_ok d
  /\ forall m, img d = Some m -> image_ok st m.

(** The states a user can bring a decoder to: a new decoder with nothing
    allocated, then [Init], [DecodeFrameHeader] and [DecodeFrame] in any
    order and number, on any input. *)
Inductive reachable {partition : Type} `{partition.ops partition}
  : Store -> Decoder partition -> Prop :=
| reachable_new : reachable [] NewDecoder
| reachable_Init st d src n :
    reachable st d -> reachable st (Init d src n)
| reachable_DecodeFrameHeader st d :
    reachable st d -> reachable st (snd (DecodeFrameHeader d))
| reachable_DecodeFrame st d res st' d' :
    reachable st d -> DecodeFrame st d = Some (res, st', d') ->
    reachable st' d'.

(** The calls made on a decoder after an [Init], up to the next one:
    [DecodeFrameHeader] and [DecodeFrame] in any order and number. *)
Inductive calls {partition : Type} `{partition.ops partition}
  : Store * Decoder partition -> Store * Decoder partition -> Prop :=
| calls_none s : calls s s
| calls_DecodeFrameHeader st d s' :
    calls (st, snd (DecodeFrameHeader d)) s' -> calls (st, d) s'
| calls_DecodeFrame st d res st1 d1 s' :
    DecodeFrame st d = Some (res, st1, d1) ->
    calls (st1, d1) s' -> calls (st, d) s'.

(** Image [m] has room for a grid of [w] by [h] macroblocks: rows of 16
    luma and 8 chroma samples per macroblock fit in its strides, and 16
    luma and 8 chroma rows per macroblock fit in its planes. *)
Definition holds_grid (m : ycbcr.YCbCr) (w h : Z) : Prop :=
  16 * w <= ycbcr.YStride m
  /\ ycbcr.YStride m * (16 * h) <= len (ycbcr.Y m)
  /\ 8 * w <= ycbcr.CStride m
  /\ ycbcr.CStride m * (8 * h) <= len (ycbcr.Cb m)
  /\ ycbcr.CStride m * (8 * h) <= len (ycbcr.Cr m).

(** A key-frame header for a 160x128 picture, and the decoder that has
    read the 176x144 key frame, has an image for it, and has then read the
    160x128 key frame from a new stream. *)
Definition key_160x128 : list byte :=
  [Byte.x10; Byte.x00; Byte.x00; Byte.x9d; Byte.x01; Byte.x2a;
   Byte.xa0; Byte.x00; Byte.x80; Byte.x00].

Definition smaller_after_larger : Store * Decoder BoolDecoder.t :=
  match ensureImg [] (snd (DecodeFrameHeader (fresh key_176x144 10))) with
  | Some (st, d) => (st, snd (DecodeFrameHeader (Init d key_160x128 10)))
  | None => ([], NewDecoder)
  end.

(** A decoder, less its scratch array. *)
Definition without_scratch {partition : Type} (d : Decoder partition)
  : Decoder partition :=
  set_scratch d Scratch_zero.

(** * Properties *)

(** ** The bounded reader *)

(** A read that the budget and the source both cover succeeds, takes the
    bytes from the front of the source and charges them to the budget. *)
Lemma ReadFull_enough (lr : limitReader.t) (p bs rest : list byte) :
  limitReader.r lr = bs ++ rest ->
  length bs = length p ->
  Z.of_nat (length p) <= limitReader.n lr ->
  limitReader.ReadFull lr p
  = (bs, None,
     {| limitReader.r := rest;
        limitReader.n := limitReader.n lr - Z.of_nat (length p) |}).
Proof.
  intros Hsrc Hlen Hn. unfold limitReader.ReadFull, io_ReadFull.
  destruct (Z.ltb_spec (limitReader.n lr) (Z.of_nat (length p))); [lia|].
  rewrite Hsrc, <- Hlen, firstn_app, Nat.sub_diag, firstn_all, firstn_O.
  rewrite app_nil_r, Nat.eqb_refl, skipn_app, Nat.sub_diag, skipn_all.
  simpl. rewrite Hlen, skipn_all. now rewrite app_nil_r.
Qed.

(** The error of a read, case by case. *)
Lemma ReadFull_error (lr : limitReader.t) (p : list byte) :
  snd (fst (limitReader.ReadFull lr p))
  = if limitReader.n lr <? Z.of_nat (length p) then Some io_ErrUnexpectedEOF
    else if (length p <=? length (limitReader.r lr))%nat then None
    else if (length (limitReader.r lr) =? 0)%nat then Some os_EOF
    else Some io_ErrUnexpectedEOF.
Proof.
  unfold limitReader.ReadFull, io_ReadFull.
  destruct (Z.ltb_spec (limitReader.n lr) (Z.of_nat (length p))); [reflexivity|].
  simpl. rewrite length_firstn.
  destruct (Nat.leb_spec (length p) (length (limitReader.r lr))).
  - rewrite Nat.min_l by lia. now rewrite Nat.eqb_refl.
  - rewrite Nat.min_r by lia.
    destruct (Nat.eqb_spec (length (limitReader.r lr)) (length p)); [lia|].
    reflexivity.
Qed.

(** The reader after a read: the source has lost the bytes that were read,
    and the budget has gone down by their number. *)
Lemma ReadFull_reader (lr : limitReader.t) (p : list byte) :
  snd (limitReader.ReadFull lr p)
  = if limitReader.n lr <? Z.of_nat (length p) then lr
    else
      {| limitReader.r := skipn (length p) (limitReader.r lr);
         limitReader.n :=
           limitReader.n lr
           - Z.of_nat (Nat.min (length p) (length (limitReader.r lr))) |}.
Proof.
  unfold limitReader.ReadFull, io_ReadFull.
  destruct (Z.ltb_spec (limitReader.n lr) (Z.of_nat (length p))); [reflexivity|].
  simpl. rewrite length_firstn. f_equal.
  destruct (Nat.le_ge_cases (length p) (length (limitReader.r lr))).
  - now rewrite Nat.min_l.
  - rewrite Nat.min_r by assumption.
    now rewrite !skipn_all2 by lia.
Qed.

(** C5 (as the code has it): a read of more bytes than the budget fails
    with [io.ErrUnexpectedEOF] and touches nothing; within the budget, a
    source that ends after at least one byte but before the requested
    length fails with [io.ErrUnexpectedEOF], and a source that has no byte
    at all for a non-empty request fails with [os.EOF]; a read succeeds
    exactly when the budget and the source both cover it, and then the
    budget decreases by exactly the requested length; after any call the
    budget has decreased by exactly the number of bytes taken from the
    source. *)
Theorem ReadFull_budget_and_errors (lr : limitReader.t) (p : list byte) :
  let res := limitReader.ReadFull lr p in
  let err := snd (fst res) in
  let lr' := snd res in
  let want := Z.of_nat (length p) in
  let have := Z.of_nat (length (limitReader.r lr)) in
  (limitReader.n lr < want -> err = Some io_ErrUnexpectedEOF /\ lr' = lr)
  /\ (want <= limitReader.n lr -> 0 < have < want ->
      err = Some io_ErrUnexpectedEOF)
  /\ (want <= limitReader.n lr -> have = 0 -> 0 < want ->
      err = Some os_EOF)
  /\ (err = None <-> want <= limitReader.n lr /\ want <= have)
  /\ (err = None -> limitReader.n lr' = limitReader.n lr - want)
  /\ limitReader.n lr - limitReader.n lr'
     = have - Z.of_nat (length (limitReader.r lr')).
Proof.
  cbv zeta. rewrite ReadFull_error, ReadFull_reader.
  destruct (Z.ltb_spec (limitReader.n lr) (Z.of_nat (length p))) as [Hn|Hn].
  - intuition (try discriminate; try lia).
  - destruct (Nat.leb_spec (length p) (length (limitReader.r lr))) as [Hs|Hs].
    + simpl. rewrite length_skipn, Nat.min_l by lia.
      intuition (try discriminate; try lia).
    + destruct (Nat.eqb_spec (length (limitReader.r lr)) 0) as [Hz|Hz];
        simpl; rewrite length_skipn, Nat.min_r by lia;
        intuition (try discriminate; try lia).
Qed.

Lemma ReadFull_budget_and_errors_witness :
  snd (fst (limitReader.ReadFull
              {| limitReader.r := [Byte.x01; Byte.x02];
                 limitReader.n := 8 |}
              [Byte.x00; Byte.x00; Byte.x00]))
  = Some io_ErrUnexpectedEOF.
Proof.
  pose proof (ReadFull_budget_and_errors
                {| limitReader.r := [Byte.x01; Byte.x02]; limitReader.n := 8 |}
                [Byte.x00; Byte.x00; Byte.x00]) as H.
  cbv zeta in H. destruct H as (_ & H & _). apply H; simpl; lia.
Defined.

(** C5, as the claim words it, fails: within the budget, a source that
    yields fewer bytes than requested because it has none left makes the
    read fail with [os.EOF], which is not [io.ErrUnexpectedEOF]. *)
Lemma ReadFull_empty_source_is_EOF :
  (length ([] : Reader) < length [Byte.x00; Byte.x00; Byte.x00])%nat
  /\ snd (fst (limitReader.ReadFull
                 {| limitReader.r := []; limitReader.n := 10 |}
                 [Byte.x00; Byte.x00; Byte.x00]))
     = Some os_EOF
  /\ Some os_EOF <> Some io_ErrUnexpectedEOF.
Proof.
  split; [simpl; lia | split; [reflexivity | discriminate]].
Qed.

(** ** The frame header *)

Lemma byte_mod (b : byte) : byte.unsigned b = byte.unsigned b mod 2 ^ 8.
Proof.
  symmetry; apply Z.mod_small.
  unfold byte.unsigned. pose proof (Byte.to_N_bounded b). lia.
Qed.

Lemma byte_range (b : byte) : 0 <= byte.unsigned b < 256.
Proof. rewrite byte_mod. apply Z.mod_pos_bound. reflexivity. Qed.

(** View every byte of the goal as a number reduced modulo [2^8], so that
    bit-level reasoning knows its width. *)
Ltac bytes_as_mod :=
  repeat match goal with
         | |- context [byte.unsigned ?b] =>
           let x := fresh "x" in
           rewrite (byte_mod b); generalize (byte.unsigned b); intro x
         end.

Ltac drop_negative_bits :=
  repeat match goal with
         | |- context [Z.testbit ?a ?j] =>
           rewrite (Z.testbit_neg_r a j) by lia
         end.

(** Equations between bit expressions over bytes, bit by bit. *)
Ltac byte_bits :=
  bytes_as_mod; Z.bitblast; subst; drop_negative_bits; try btauto.

Lemma le_word3_lor (b0 b1 b2 : byte) :
  le_word [b0; b1; b2]
  = Z.lor (byte.unsigned b0)
      (Z.lor (Z.shiftl (byte.unsigned b1) 8) (Z.shiftl (byte.unsigned b2) 16)).
Proof.
  cbn [le_word]. rewrite Z.mul_0_r, Z.add_0_r.
  replace (byte.unsigned b0 + 2 ^ 8 * (byte.unsigned b1 + 2 ^ 8 * byte.unsigned b2))
    with (byte.unsigned b0
          + (Z.shiftl (byte.unsigned b1) 8 + Z.shiftl (byte.unsigned b2) 16))
    by (rewrite !Z.shiftl_mul_pow2 by lia; lia).
  rewrite <- (Z.or_to_plus (Z.shiftl _ 8)) by byte_bits.
  rewrite <- Z.or_to_plus by byte_bits. reflexivity.
Qed.

Lemma le_word2_lor (b0 b1 : byte) :
  le_word [b0; b1]
  = Z.lor (byte.unsigned b0) (Z.shiftl (byte.unsigned b1) 8).
Proof.
  cbn [le_word]. rewrite Z.mul_0_r, Z.add_0_r.
  rewrite (Z.mul_comm (2 ^ 8)), <- Z.shiftl_mul_pow2 by lia.
  rewrite <- Z.or_to_plus by byte_bits. reflexivity.
Qed.

Lemma land_1_is_0 (a : Z) : (Z.land a 1 =? 0) = negb (Z.testbit a 0).
Proof.
  rewrite Z.bit0_odd. change 1 with (Z.ones 1). rewrite Z.land_ones by lia.
  change (2 ^ 1) with 2. rewrite Zmod_odd. now destruct (Z.odd a).
Qed.

Lemma land_1_is_1 (a : Z) : (Z.land a 1 =? 1) = Z.testbit a 0.
Proof.
  rewrite Z.bit0_odd. change 1 with (Z.ones 1) at 1.
  rewrite Z.land_ones by lia.
  change (2 ^ 1) with 2. rewrite Zmod_odd. now destruct (Z.odd a).
Qed.

Section Header.
Context {partition : Type} {partition_ops : partition.ops partition}.
Implicit Type d : Decoder partition.

Lemma length_scratch_to (s : Scratch) (k : nat) : length (scratch_to s k) = k.
Proof. unfold scratch_to. now rewrite length_map, length_seq. Qed.

(** A read into the scratch array changes the reader and the scratch
    array only. *)
Lemma read_scratch_frame d k :
  let d' := snd (read_scratch d k) in
  frameHeader d' = frameHeader d /\ mbw d' = mbw d /\ mbh d' = mbh d
  /\ img d' = img d /\ fp d' = fp d /\ op d' = op d.
Proof.
  unfold read_scratch.
  destruct (limitReader.ReadFull _ _) as [[b e] lr]. simpl. tauto.
Qed.

Lemma read_scratch_enough d k bs rest :
  limitReader.r (r d) = bs ++ rest ->
  length bs = k ->
  Z.of_nat k <= limitReader.n (r d) ->
  read_scratch d k
  = (bs, None,
     set_scratch
       (set_r d {| limitReader.r := rest;
                   limitReader.n := limitReader.n (r d) - Z.of_nat k |})
       (scratch_store (scratch d) bs)).
Proof.
  intros Hsrc Hlen Hn. unfold read_scratch.
  rewrite (ReadFull_enough _ _ bs rest), length_scratch_to;
    rewrite ?length_scratch_to; auto.
Qed.

Lemma read_scratch_error d k :
  snd (fst (read_scratch d k))
  = snd (fst (limitReader.ReadFull (r d) (scratch_to (scratch d) k))).
Proof.
  unfold read_scratch.
  now destruct (limitReader.ReadFull _ _) as [[b e] lr].
Qed.

Lemma read_scratch_reader d k :
  r (snd (read_scratch d k))
  = snd (limitReader.ReadFull (r d) (scratch_to (scratch d) k)).
Proof.
  unfold read_scratch.
  now destruct (limitReader.ReadFull _ _) as [[b e] lr].
Qed.
End Header.

Section HeaderFields.
Context {partition : Type} {partition_ops : partition.ops partition}.
Implicit Type d : Decoder partition.

(** The three-byte part of the header, as the code computes it from the
    bytes it has read; it stays in the decoder whatever happens next. *)
Lemma DecodeFrameHeader_start d b0 b1 b2 rest fh err d' :
  limitReader.r (r d) = b0 :: b1 :: b2 :: rest ->
  3 <= limitReader.n (r d) ->
  DecodeFrameHeader d = (fh, err, d') ->
  let a0 := byte.unsigned b0 in
  let h := frameHeader d' in
  KeyFrame h = (Z.land a0 1 =? 0)
  /\ VersionNumber h = Z.land (Z.shiftr a0 1) 7
  /\ ShowFrame h = (Z.land (Z.shiftr a0 4) 1 =? 1)
  /\ FirstPartitionLen h
     = Z.lor (Z.lor (Z.shiftr a0 5)
                    (uint32 (Z.shiftl (byte.unsigned b1) 3)))
             (uint32 (Z.shiftl (byte.unsigned b2) 11))
  /\ (err = None -> fh = h).
Proof.
  intros Hsrc Hn. cbv zeta. unfold DecodeFrameHeader.
  rewrite (read_scratch_enough d 3 [b0; b1; b2] rest) by (auto; simpl; lia).
  cbv [at_ nth]. cbn [KeyFrame].
  destruct (Z.land (byte.unsigned b0) 1 =? 0) eqn:Hkey; cbn [negb].
  - match goal with
    | |- context [read_scratch ?x 7] =>
      pose proof (read_scratch_frame x 7) as Hfr;
      destruct (read_scratch x 7) as [[b e] d2]
    end.
    cbv zeta in Hfr. cbn [snd] in Hfr. destruct Hfr as (Hfh & _).
    cbn [frameHeader set_frameHeader] in Hfh.
    destruct e as [e|].
    + intros H; inversion H; subst; clear H. rewrite Hfh.
      repeat split; discriminate.
    + destruct (negb _ || negb _ || negb _).
      * intros H; inversion H; subst; clear H. rewrite Hfh.
        repeat split; discriminate.
      * intros H; inversion H; subst; clear H. repeat split.
  - intros H; inversion H; subst; clear H. repeat split.
Qed.

(** C1: once the first three bytes have been read, the decoder holds the
    fields the layout gives: KeyFrame is the negation of bit 0 of byte 0,
    VersionNumber is bits 1-3 of byte 0, ShowFrame is bit 4 of byte 0,
    and FirstPartitionLen is made of bits 5-7 of byte 0, then the eight
    bits of byte 1, then the eight bits of byte 2; that is, it is the
    little-endian word of the three bytes shifted right by five, a number
    below 2^19. A header returned without error carries these fields. *)
Theorem DecodeFrameHeader_layout d b0 b1 b2 rest fh err d' :
  limitReader.r (r d) = b0 :: b1 :: b2 :: rest ->
  3 <= limitReader.n (r d) ->
  DecodeFrameHeader d = (fh, err, d') ->
  let a0 := byte.unsigned b0 in
  let a1 := byte.unsigned b1 in
  let a2 := byte.unsigned b2 in
  let h := frameHeader d' in
  (KeyFrame h = true <-> Z.testbit a0 0 = false)
  /\ (forall i, 0 <= i ->
      Z.testbit (VersionNumber h) i = (i <? 3) && Z.testbit a0 (i + 1))
  /\ ShowFrame h = Z.testbit a0 4
  /\ (forall i, 0 <= i ->
      Z.testbit (FirstPartitionLen h) i
      = if i <? 3 then Z.testbit a0 (i + 5)
        else if i <? 11 then Z.testbit a1 (i - 3)
        else if i <? 19 then Z.testbit a2 (i - 11)
        else false)
  /\ FirstPartitionLen h = le_word [b0; b1; b2] / 2 ^ 5
  /\ 0 <= FirstPartitionLen h < 2 ^ 19
  /\ (err = None -> fh = h).
Proof.
  intros Hsrc Hn Hrun.
  destruct (DecodeFrameHeader_start d b0 b1 b2 rest fh err d' Hsrc Hn Hrun)
    as (Hk & Hv & Hs & Hl & Hfh).
  cbv zeta in *.
  assert (Hword : FirstPartitionLen (frameHeader d')
                  = Z.shiftr (le_word [b0; b1; b2]) 5).
  { rewrite Hl, le_word3_lor. unfold uint32. byte_bits. }
  split; [|split; [|split; [|split; [|split; [|split]]]]].
  - rewrite Hk, land_1_is_0.
    destruct (Z.testbit (byte.unsigned b0) 0); simpl; intuition congruence.
  - intros i Hi. rewrite Hv. change 7 with (Z.ones 3).
    rewrite Z.land_spec, Z.shiftr_spec, Z.testbit_ones_nonneg by lia.
    apply andb_comm.
  - rewrite Hs, land_1_is_1. now rewrite Z.shiftr_spec by lia.
  - intros i Hi. rewrite Hl. unfold uint32.
    rewrite !Z.lor_spec, Z.shiftr_spec, !Z.testbit_mod_pow2 by lia.
    rewrite !Z.shiftl_spec by lia.
    rewrite (byte_mod b0), (byte_mod b1), (byte_mod b2).
    rewrite !Z.testbit_mod_pow2 by lia.
    destruct (Z.ltb_spec i 3), (Z.ltb_spec i 11), (Z.ltb_spec i 19);
      try lia;
      repeat match goal with
             | |- context [?x <? ?y] => destruct (Z.ltb_spec x y); try lia
             end;
      drop_negative_bits; cbn [andb orb]; btauto.
  - rewrite Hword. apply Z.shiftr_div_pow2. lia.
  - rewrite Hword, Z.shiftr_div_pow2 by lia.
    pose proof (byte_range b0); pose proof (byte_range b1);
      pose proof (byte_range b2).
    cbn [le_word]. change (2 ^ 8) with 256. change (2 ^ 5) with 32.
    change (2 ^ 19) with 524288.
    split; [apply Z.div_pos; lia | apply Z.div_lt_upper_bound; lia].
  - exact Hfh.
Qed.
End HeaderFields.

(** ** Which error a header read ends in *)

(** Tests on the length of a list that is known to be long enough. *)
Ltac settle_lengths :=
  repeat match goal with
         | |- context [Z.of_nat ?k =? ?c] =>
           destruct (Z.eqb_spec (Z.of_nat k) c); [cbn [length] in *; lia|]
         | |- context [Z.of_nat ?k <? ?c] =>
           destruct (Z.ltb_spec (Z.of_nat k) c); [cbn [length] in *; lia|]
         end.

Section HeaderErrors.
Context {partition : Type} {partition_ops : partition.ops partition}.
Implicit Type d : Decoder partition.

Lemma DecodeFrameHeader_error d :
  snd (fst (DecodeFrameHeader d)) = header_error (r d).
Proof.
  unfold header_error, DecodeFrameHeader, read_scratch, is_key, sync_ok.
  destruct d as [[src n] im w h fh p ops s]. cbn [r limitReader.r limitReader.n].
  unfold limitReader.ReadFull, io_ReadFull.
  rewrite !length_scratch_to. cbn [limitReader.r limitReader.n].
  change (Z.of_nat 3) with 3.
  destruct (Z.ltb_spec n 3); [reflexivity|].
  destruct src as [|b0 [|b1 [|b2 src]]]; try reflexivity.
  cbn [firstn length Nat.eqb skipn app fst snd].
  cbv [at_ nth]. cbn [KeyFrame set_frameHeader set_scratch set_r r scratch
                      frameHeader limitReader.r limitReader.n].
  rewrite land_1_is_0. settle_lengths.
  destruct (Z.testbit (byte.unsigned b0) 0); cbn [negb]; [reflexivity|].
  rewrite length_scratch_to. change (Z.of_nat 3) with 3.
  change (Z.of_nat 7) with 7.
  destruct (Z.ltb_spec (n - 3) 7), (Z.ltb_spec n 10); try lia;
    [reflexivity|].
  destruct src as [|b3 [|b4 [|b5 [|b6 [|b7 [|b8 [|b9 src]]]]]]];
    try reflexivity.
  cbn [firstn length Nat.eqb skipn app fst snd nth]. settle_lengths.
  destruct (byte.unsigned b3 =? 157), (byte.unsigned b4 =? 1),
    (byte.unsigned b5 =? 42); reflexivity.
Qed.
End HeaderErrors.

Section HeaderPaths.
Context {partition : Type} {partition_ops : partition.ops partition}.
Implicit Type d : Decoder partition.

(** Whatever the input, a call either parses a key frame to its end, or
    leaves the stored geometry and the image alone. *)
Lemma DecodeFrameHeader_geometry d fh err d' :
  DecodeFrameHeader d = (fh, err, d') ->
  (err = None /\ KeyFrame fh = true)
  \/ (Width (frameHeader d') = Width (frameHeader d)
      /\ Height (frameHeader d') = Height (frameHeader d)
      /\ XScale (frameHeader d') = XScale (frameHeader d)
      /\ YScale (frameHeader d') = YScale (frameHeader d)
      /\ mbw d' = mbw d /\ mbh d' = mbh d /\ img d' = img d).
Proof.
  unfold DecodeFrameHeader.
  pose proof (read_scratch_frame d 3) as H1.
  destruct (read_scratch d 3) as [[b e] d1].
  cbv zeta in H1; cbn [snd] in H1.
  destruct H1 as (Hfh & Hw & Hh & Him & _).
  destruct e as [e|].
  { intros H; inversion H; subst; clear H. right.
    rewrite Hfh, Hw, Hh, Him. repeat split. }
  cbn [KeyFrame].
  destruct (Z.land (at_ b 0) 1 =? 0); cbn [negb].
  2:{ intros H; inversion H; subst; clear H. right. cbn.
      rewrite Hfh. repeat split; assumption. }
  match goal with
  | |- context [read_scratch ?x 7] =>
    pose proof (read_scratch_frame x 7) as H2;
    destruct (read_scratch x 7) as [[b' e'] d2]
  end.
  cbv zeta in H2; cbn [snd] in H2. cbn in H2.
  destruct H2 as (Hfh2 & Hw2 & Hh2 & Him2 & _).
  destruct e' as [e'|].
  { intros H; inversion H; subst; clear H. right.
    rewrite Hfh2, Hw2, Hh2, Him2. cbn. rewrite Hfh. repeat split;
      assumption. }
  destruct (negb _ || negb _ || negb _).
  { intros H; inversion H; subst; clear H. right.
    rewrite Hfh2, Hw2, Hh2, Him2. cbn. rewrite Hfh. repeat split;
      assumption. }
  intros H; inversion H; subst; clear H. left. split; reflexivity.
Qed.

(** The path of a complete key-frame header with the right sync code. *)
Lemma DecodeFrameHeader_key d b0 b1 b2 b3 b4 b5 b6 b7 b8 b9 rest :
  limitReader.r (r d)
  = b0 :: b1 :: b2 :: b3 :: b4 :: b5 :: b6 :: b7 :: b8 :: b9 :: rest ->
  10 <= limitReader.n (r d) ->
  Z.testbit (byte.unsigned b0) 0 = false ->
  sync_ok (limitReader.r (r d)) = true ->
  exists fh d',
    DecodeFrameHeader d = (fh, None, d')
    /\ fh = frameHeader d'
    /\ KeyFrame fh = true
    /\ Width fh = Z.lor (Z.shiftl (Z.land (byte.unsigned b7) 0x3f) 8)
                        (byte.unsigned b6)
    /\ Height fh = Z.lor (Z.shiftl (Z.land (byte.unsigned b9) 0x3f) 8)
                         (byte.unsigned b8)
    /\ XScale fh = Z.shiftr (byte.unsigned b7) 6
    /\ YScale fh = Z.shiftr (byte.unsigned b9) 6
    /\ mbw d' = Z.shiftr (Width fh + 0x0f) 4
    /\ mbh d' = Z.shiftr (Height fh + 0x0f) 4
    /\ img d' = img d
    /\ r d' = {| limitReader.r := rest;
                 limitReader.n := limitReader.n (r d) - 10 |}.
Proof.
  intros Hsrc Hn Hkey Hsync. unfold DecodeFrameHeader.
  rewrite (read_scratch_enough d 3 [b0; b1; b2]
             (b3 :: b4 :: b5 :: b6 :: b7 :: b8 :: b9 :: rest))
    by (auto; simpl; lia).
  cbv [at_ nth]. cbn [KeyFrame].
  rewrite land_1_is_0, Hkey. cbn [negb].
  rewrite (read_scratch_enough _ 7 [b3; b4; b5; b6; b7; b8; b9] rest)
    by (auto; cbn; lia).
  unfold sync_ok in Hsync. rewrite Hsrc in Hsync. cbv [at_ nth] in Hsync.
  apply andb_prop in Hsync. destruct Hsync as [Hsync H5].
  apply andb_prop in Hsync. destruct Hsync as [H3 H4].
  cbv [nth]. rewrite H3, H4, H5. cbn [negb orb].
  eexists _, _. split; [reflexivity|].
  cbn. repeat split. f_equal. lia.
Qed.
End HeaderPaths.

Section HeaderClaims.
Context {partition : Type} {partition_ops : partition.ops partition}.
Implicit Type d : Decoder partition.

Lemma header_error_None_inv (lr : limitReader.t) :
  header_error lr = None ->
  3 <= avail lr
  /\ (is_key (limitReader.r lr) = true ->
      10 <= avail lr /\ sync_ok (limitReader.r lr) = true).
Proof.
  unfold header_error, avail.
  destruct (Z.ltb_spec (limitReader.n lr) 3); [discriminate|].
  destruct (Z.eqb_spec (Z.of_nat (length (limitReader.r lr))) 0);
    [discriminate|].
  destruct (Z.ltb_spec (Z.of_nat (length (limitReader.r lr))) 3);
    [discriminate|].
  destruct (is_key (limitReader.r lr)); cbn [negb].
  2:{ intros _. split; [lia | discriminate]. }
  destruct (Z.ltb_spec (limitReader.n lr) 10); [discriminate|].
  destruct (Z.eqb_spec (Z.of_nat (length (limitReader.r lr))) 3);
    [discriminate|].
  destruct (Z.ltb_spec (Z.of_nat (length (limitReader.r lr))) 10);
    [discriminate|].
  destruct (sync_ok (limitReader.r lr)); [|discriminate].
  intros _. split; [lia|]. intros _. split; [lia | reflexivity].
Qed.

(** C2 (as the code has it): a complete key-frame header whose sync
    bytes are not 0x9d 0x01 0x2a fails with the invalid-format error;
    that error is returned for no other cause; an end-of-stream error,
    [io.ErrUnexpectedEOF] or [os.EOF], is returned exactly when a read
    cannot be satisfied, so format and truncation failures are never
    conflated; the end-of-stream error is [os.EOF] exactly when the
    budget covers the read and the source has no byte left when the
    read starts. *)
Theorem DecodeFrameHeader_failure_causes d :
  let lr := r d in
  let src := limitReader.r lr in
  let err := snd (fst (DecodeFrameHeader d)) in
  (10 <= avail lr -> is_key src = true -> sync_ok src = false ->
   err = Some (os_NewError invalid_format))
  /\ (forall msg, err = Some (os_NewError msg) ->
      msg = invalid_format
      /\ 10 <= avail lr /\ is_key src = true /\ sync_ok src = false)
  /\ (err = Some os_EOF \/ err = Some io_ErrUnexpectedEOF
      <-> avail lr < 3 \/ (is_key src = true /\ avail lr < 10))
  /\ (err = Some os_EOF
      <-> (3 <= limitReader.n lr /\ length src = 0%nat)
          \/ (is_key src = true /\ 10 <= limitReader.n lr
              /\ length src = 3%nat)).
Proof.
  cbv zeta. rewrite DecodeFrameHeader_error.
  unfold header_error, avail.
  destruct (Z.ltb_spec (limitReader.n (r d)) 3);
    [intuition (try discriminate; try congruence; try lia)|].
  destruct (Z.eqb_spec (Z.of_nat (length (limitReader.r (r d)))) 0);
    [intuition (try discriminate; try congruence; try lia)|].
  destruct (Z.ltb_spec (Z.of_nat (length (limitReader.r (r d)))) 3);
    [intuition (try discriminate; try congruence; try lia)|].
  destruct (is_key (limitReader.r (r d))); cbn [negb];
    [|intuition (try discriminate; try congruence; try lia)].
  destruct (Z.ltb_spec (limitReader.n (r d)) 10);
    [intuition (try discriminate; try congruence; try lia)|].
  destruct (Z.eqb_spec (Z.of_nat (length (limitReader.r (r d)))) 3);
    [intuition (try discriminate; try congruence; try lia)|].
  destruct (Z.ltb_spec (Z.of_nat (length (limitReader.r (r d)))) 10);
    [intuition (try discriminate; try congruence; try lia)|].
  destruct (sync_ok (limitReader.r (r d)));
    intuition (try discriminate; try congruence; try lia).
Qed.
End HeaderClaims.

Lemma DecodeFrameHeader_failure_causes_witness :
  snd (fst (DecodeFrameHeader (fresh key_bad_sync 10)))
  = Some (os_NewError invalid_format).
Proof.
  pose proof (DecodeFrameHeader_failure_causes (fresh key_bad_sync 10)) as H.
  cbv zeta in H. destruct H as (H & _).
  apply H; try reflexivity; unfold avail; simpl; lia.
Defined.

(** C2, as the claim words it, fails: here the first read cannot be
    satisfied, the budget being ample and the source empty, and the error
    is [os.EOF], not [io.ErrUnexpectedEOF]. *)
Lemma DecodeFrameHeader_empty_source_is_EOF :
  avail (r (fresh [] 10)) < 3
  /\ snd (fst (DecodeFrameHeader (fresh [] 10))) = Some os_EOF
  /\ Some os_EOF <> Some io_ErrUnexpectedEOF.
Proof.
  split; [unfold avail; simpl; lia | split; [reflexivity | discriminate]].
Qed.

Section Geometry.
Context {partition : Type} {partition_ops : partition.ops partition}.
Implicit Type d : Decoder partition.

Lemma shiftr_4_ceil (w : Z) :
  16 * (Z.shiftr (w + 0x0f) 4 - 1) < w <= 16 * Z.shiftr (w + 0x0f) 4.
Proof.
  rewrite Z.shiftr_div_pow2 by lia. change (2 ^ 4) with 16.
  pose proof (Z.div_mod (w + 15) 16).
  pose proof (Z.mod_pos_bound (w + 15) 16). lia.
Qed.

(** The 16-bit field of a size: the low 14 bits as the code extracts
    them, and the top 2 bits. *)
Lemma size_field (lo hi : byte) :
  Z.lor (Z.shiftl (Z.land (byte.unsigned hi) 0x3f) 8) (byte.unsigned lo)
  = le_word [lo; hi] mod 2 ^ 14.
Proof. rewrite le_word2_lor. change 0x3f with (Z.ones 6). byte_bits. Qed.

Lemma scale_field (lo hi : byte) :
  Z.shiftr (byte.unsigned hi) 6 = le_word [lo; hi] / 2 ^ 14.
Proof. rewrite le_word2_lor, <- Z.shiftr_div_pow2 by lia. byte_bits. Qed.

(** C3: in a successfully parsed key-frame header, the width is the low
    14 bits and the x-scale the top 2 bits of the little-endian 16-bit
    field at header bytes 6-7, the height and the y-scale likewise from
    bytes 8-9, and the macroblock grid is the width and the height over
    16, rounded up; a header that encodes 176x144 with scale 0 gives
    width 176, height 144, scales 0 and a grid of 11 by 9. *)
Theorem DecodeFrameHeader_key_geometry
        d b0 b1 b2 b3 b4 b5 b6 b7 b8 b9 rest fh d' :
  limitReader.r (r d)
  = b0 :: b1 :: b2 :: b3 :: b4 :: b5 :: b6 :: b7 :: b8 :: b9 :: rest ->
  DecodeFrameHeader d = (fh, None, d') ->
  KeyFrame fh = true ->
  Width fh = le_word [b6; b7] mod 2 ^ 14
  /\ XScale fh = le_word [b6; b7] / 2 ^ 14
  /\ Height fh = le_word [b8; b9] mod 2 ^ 14
  /\ YScale fh = le_word [b8; b9] / 2 ^ 14
  /\ 16 * (mbw d' - 1) < Width fh <= 16 * mbw d'
  /\ 16 * (mbh d' - 1) < Height fh <= 16 * mbh d'
  /\ (le_word [b6; b7] = 176 -> le_word [b8; b9] = 144 ->
      Width fh = 176 /\ Height fh = 144 /\ XScale fh = 0 /\ YScale fh = 0
      /\ mbw d' = 11 /\ mbh d' = 9).
Proof.
  intros Hsrc Hrun Hkf.
  pose proof (DecodeFrameHeader_error d) as Herr.
  rewrite Hrun in Herr. cbn [fst snd] in Herr. symmetry in Herr.
  apply header_error_None_inv in Herr. destruct Herr as (H3 & Hkey).
  assert (Hn3 : 3 <= limitReader.n (r d)) by (unfold avail in H3; lia).
  destruct (DecodeFrameHeader_start d b0 b1 b2 _ fh None d' Hsrc Hn3 Hrun)
    as (Hk & _ & _ & _ & Hfh).
  cbv zeta in *. rewrite <- (Hfh eq_refl), Hkf, land_1_is_0 in Hk.
  assert (Hbit : Z.testbit (byte.unsigned b0) 0 = false)
    by (destruct (Z.testbit (byte.unsigned b0) 0); [discriminate | easy]).
  assert (Hiskey : is_key (limitReader.r (r d)) = true)
    by (unfold is_key; rewrite Hsrc; cbv [at_ nth]; now rewrite Hbit).
  destruct (Hkey Hiskey) as (H10 & Hsync).
  assert (Hn10 : 10 <= limitReader.n (r d)) by (unfold avail in H10; lia).
  destruct (DecodeFrameHeader_key d _ _ _ _ _ _ _ _ _ _ _ Hsrc Hn10 Hbit Hsync)
    as (fh0 & d0 & Hrun0 & _ & _ & Hw & Hh & Hx & Hy & Hmw & Hmh & _).
  rewrite Hrun in Hrun0. inversion Hrun0; subst fh0 d0; clear Hrun0.
  assert (HW : Width fh = le_word [b6; b7] mod 2 ^ 14)
    by (rewrite Hw; apply size_field).
  assert (HH : Height fh = le_word [b8; b9] mod 2 ^ 14)
    by (rewrite Hh; apply size_field).
  assert (HX : XScale fh = le_word [b6; b7] / 2 ^ 14)
    by (rewrite Hx; apply scale_field).
  assert (HY : YScale fh = le_word [b8; b9] / 2 ^ 14)
    by (rewrite Hy; apply scale_field).
  split; [exact HW|]. split; [exact HX|].
  split; [exact HH|]. split; [exact HY|].
  split; [rewrite Hmw; apply shiftr_4_ceil|].
  split; [rewrite Hmh; apply shiftr_4_ceil|].
  intros E1 E2. rewrite Hmw, Hmh, HX, HY, HW, HH, E1, E2.
  repeat split.
Qed.

(** C6: decoding the header of a frame that is not a key frame leaves
    the stored width, height and scales, the macroblock grid and the
    image as they were; a header it returns carries the stored
    geometry. *)
Theorem DecodeFrameHeader_non_key_keeps_geometry d b0 rest fh err d' :
  limitReader.r (r d) = b0 :: rest ->
  Z.testbit (byte.unsigned b0) 0 = true ->
  DecodeFrameHeader d = (fh, err, d') ->
  Width (frameHeader d') = Width (frameHeader d)
  /\ Height (frameHeader d') = Height (frameHeader d)
  /\ XScale (frameHeader d') = XScale (frameHeader d)
  /\ YScale (frameHeader d') = YScale (frameHeader d)
  /\ mbw d' = mbw d /\ mbh d' = mbh d /\ img d' = img d
  /\ (err = None ->
      KeyFrame fh = false
      /\ Width fh = Width (frameHeader d)
      /\ Height fh = Height (frameHeader d)
      /\ XScale fh = XScale (frameHeader d)
      /\ YScale fh = YScale (frameHeader d)).
Proof.
  intros Hsrc Hbit Hrun.
  assert (Hnk : err = None -> KeyFrame fh = false /\ fh = frameHeader d').
  { intros ->.
    pose proof (DecodeFrameHeader_error d) as Herr.
    rewrite Hrun in Herr. cbn [fst snd] in Herr. symmetry in Herr.
    apply header_error_None_inv in Herr. destruct Herr as (H3 & _).
    unfold avail in H3. rewrite Hsrc in H3.
    destruct rest as [|b1 [|b2 rest]]; try (simpl in H3; lia).
    destruct (DecodeFrameHeader_start d b0 b1 b2 rest fh None d' Hsrc
                ltac:(lia) Hrun) as (Hk & _ & _ & _ & Hfh).
    cbv zeta in *. rewrite (Hfh eq_refl), Hk, land_1_is_0, Hbit.
    split; reflexivity. }
  destruct (DecodeFrameHeader_geometry d fh err d' Hrun)
    as [(He & Hk) | Hkeep].
  - destruct (Hnk He) as (Hk' & _). congruence.
  - destruct Hkeep as (Hw & Hh & Hx & Hy & Hmw & Hmh & Him).
    do 7 (split; [assumption|]).
    intros He. destruct (Hnk He) as (Hk & ->). repeat split; assumption.
Qed.
End Geometry.

Lemma DecodeFrameHeader_layout_witness :
  FirstPartitionLen
    (frameHeader (snd (DecodeFrameHeader
                         (fresh [Byte.xa1; Byte.x02; Byte.x00] 3))))
  = le_word [Byte.xa1; Byte.x02; Byte.x00] / 2 ^ 5.
Proof.
  apply (DecodeFrameHeader_layout
           (fresh [Byte.xa1; Byte.x02; Byte.x00] 3)
           Byte.xa1 Byte.x02 Byte.x00 []
           (fst (fst (DecodeFrameHeader (fresh [Byte.xa1; Byte.x02; Byte.x00] 3))))
           (snd (fst (DecodeFrameHeader (fresh [Byte.xa1; Byte.x02; Byte.x00] 3))))
           (snd (DecodeFrameHeader (fresh [Byte.xa1; Byte.x02; Byte.x00] 3)))
           eq_refl ltac:(simpl; lia) eq_refl).
Defined.

Lemma DecodeFrameHeader_key_geometry_witness :
  mbw (snd (DecodeFrameHeader (fresh key_176x144 10))) = 11
  /\ mbh (snd (DecodeFrameHeader (fresh key_176x144 10))) = 9.
Proof.
  pose proof (DecodeFrameHeader_key_geometry
                (fresh key_176x144 10)
                Byte.x10 Byte.x00 Byte.x00 Byte.x9d Byte.x01 Byte.x2a
                Byte.xb0 Byte.x00 Byte.x90 Byte.x00 []
                (fst (fst (DecodeFrameHeader (fresh key_176x144 10))))
                (snd (DecodeFrameHeader (fresh key_176x144 10)))
                eq_refl eq_refl eq_refl) as H.
  destruct H as (_ & _ & _ & _ & _ & _ & H).
  destruct (H eq_refl eq_refl) as (_ & _ & _ & _ & Hw & Hh).
  split; assumption.
Defined.

Lemma DecodeFrameHeader_non_key_keeps_geometry_witness :
  Width (frameHeader
           (snd (DecodeFrameHeader
                   (after_key_176x144 [Byte.x01; Byte.x00; Byte.x00] 3))))
  = Width (frameHeader (after_key_176x144 [Byte.x01; Byte.x00; Byte.x00] 3)).
Proof.
  pose proof (DecodeFrameHeader_non_key_keeps_geometry
           (after_key_176x144 [Byte.x01; Byte.x00; Byte.x00] 3)
           Byte.x01 [Byte.x00; Byte.x00]
           (fst (fst (DecodeFrameHeader
                        (after_key_176x144 [Byte.x01; Byte.x00; Byte.x00] 3))))
           (snd (fst (DecodeFrameHeader
                        (after_key_176x144 [Byte.x01; Byte.x00; Byte.x00] 3))))
           (snd (DecodeFrameHeader
                   (after_key_176x144 [Byte.x01; Byte.x00; Byte.x00] 3)))
           eq_refl eq_refl eq_refl) as H.
  destruct H as (H & _). exact H.
Defined.

(** ** The frame buffer *)

Section FrameBuffer.
Context {partition : Type} {partition_ops : partition.ops partition}.
Implicit Type d : Decoder partition.

Lemma geometry_ok_grid d :
  geometry_ok d -> 0 <= mbw d <= 1024 /\ 0 <= mbh d <= 1024.
Proof.
  intros (Hw & Hh & -> & ->). rewrite !Z.shiftr_div_pow2 by lia.
  change (2 ^ 4) with 16. change (2 ^ 14) with 16384 in *.
  split; split;
    solve [apply Z.div_pos; lia
          | apply Z.lt_succ_r; apply Z.div_lt_upper_bound; lia].
Qed.

Lemma geometry_ok_NewDecoder : geometry_ok (NewDecoder (partition := partition)).
Proof. repeat split; simpl; lia. Qed.

Lemma geometry_ok_Init d src n : geometry_ok d -> geometry_ok (Init d src n).
Proof. exact (fun H => H). Qed.

(** A key frame parsed to its end had its ten bytes, within the budget,
    with the key bit and the sync code. *)
Lemma DecodeFrameHeader_key_inv d fh d' :
  DecodeFrameHeader d = (fh, None, d') ->
  KeyFrame fh = true ->
  exists b0 b1 b2 b3 b4 b5 b6 b7 b8 b9 rest,
    limitReader.r (r d)
    = b0 :: b1 :: b2 :: b3 :: b4 :: b5 :: b6 :: b7 :: b8 :: b9 :: rest
    /\ 10 <= limitReader.n (r d)
    /\ Z.testbit (byte.unsigned b0) 0 = false
    /\ sync_ok (limitReader.r (r d)) = true.
Proof.
  intros Hrun Hk.
  pose proof (DecodeFrameHeader_error d) as Herr.
  rewrite Hrun in Herr. cbn [fst snd] in Herr. symmetry in Herr.
  apply header_error_None_inv in Herr. destruct Herr as (H3 & Hkey).
  unfold avail in H3, Hkey.
  destruct (limitReader.r (r d)) as [|b0 [|b1 [|b2 rest]]] eqn:Hsrc;
    try (cbn [length] in H3; lia).
  destruct (DecodeFrameHeader_start d b0 b1 b2 rest fh None d' Hsrc
              ltac:(lia) Hrun) as (Hkb & _ & _ & _ & Hfh).
  cbv zeta in *. rewrite <- (Hfh eq_refl), Hk, land_1_is_0 in Hkb.
  assert (Hbit : Z.testbit (byte.unsigned b0) 0 = false)
    by (destruct (Z.testbit (byte.unsigned b0) 0); [discriminate | easy]).
  destruct Hkey as (H10 & Hsync).
  { unfold is_key. cbv [at_ nth]. now rewrite Hbit. }
  destruct rest as [|b3 [|b4 [|b5 [|b6 [|b7 [|b8 [|b9 rest]]]]]]];
    try (cbn [length] in H10; lia).
  exists b0, b1, b2, b3, b4, b5, b6, b7, b8, b9, rest.
  repeat split; try assumption; lia.
Qed.

Lemma geometry_ok_DecodeFrameHeader d :
  geometry_ok d -> geometry_ok (snd (DecodeFrameHeader d)).
Proof.
  intros Hok.
  destruct (DecodeFrameHeader d) as [[fh err] d'] eqn:Hrun. cbn [snd].
  destruct (DecodeFrameHeader_geometry d fh err d' Hrun)
    as [(He & Hk) | (Hw & Hh & _ & _ & Hmw & Hmh & _)].
  - subst err.
    destruct (DecodeFrameHeader_key_inv d fh d' Hrun Hk)
      as (b0 & b1 & b2 & b3 & b4 & b5 & b6 & b7 & b8 & b9 & rest
          & Hsrc & Hn & Hbit & Hsync).
    destruct (DecodeFrameHeader_key d _ _ _ _ _ _ _ _ _ _ _ Hsrc Hn Hbit Hsync)
      as (fh0 & d0 & Hrun0 & Hfh0 & _ & HW & HH & _ & _ & Hmw0 & Hmh0 & _).
    rewrite size_field in HW, HH.
    assert (E : fh0 = fh /\ d0 = d')
      by (rewrite Hrun in Hrun0; inversion Hrun0; auto).
    destruct E as [E1 E2]. rewrite E1, E2 in *.
    unfold geometry_ok. rewrite <- Hfh0.
    repeat split; try assumption;
      rewrite ?HW, ?HH; apply Z.mod_pos_bound; lia.
  - destruct Hok as (H1 & H2 & H3 & H4).
    unfold geometry_ok. rewrite Hw, Hh, Hmw, Hmh. tauto.
Qed.
End FrameBuffer.

Section Allocation.
Context {partition : Type} {partition_ops : partition.ops partition}.
Implicit Type d : Decoder partition.

(** An image that covers the grid is kept: no allocation, no change. *)
Lemma ensureImg_reuse st d :
  covers d = true -> ensureImg st d = Some (st, d).
Proof. unfold ensureImg. now intros ->. Qed.

Lemma window_of_zeros (total i k : nat) :
  (i + k <= total)%nat ->
  firstn k (skipn i (repeat Byte.x00 total)) = repeat Byte.x00 k.
Proof.
  intros Hle. replace total with (i + (k + (total - i - k)))%nat by lia.
  rewrite !repeat_app, skipn_app, repeat_length, Nat.sub_diag.
  rewrite skipn_all2 by (rewrite repeat_length; lia).
  cbn [skipn app].
  rewrite firstn_app, repeat_length, Nat.sub_diag, firstn_O, app_nil_r.
  apply firstn_all2. rewrite repeat_length. lia.
Qed.

(** The allocating path of [ensureImg], with the image it builds written
    out. *)
Lemma ensureImg_fresh st d :
  geometry_ok d ->
  covers d = false ->
  ensureImg st d
  = Some (st ++ [repeat Byte.x00 (Z.to_nat (384 * (mbw d * mbh d)))],
          set_img d (Some
            {| ycbcr.Y := {| arr := length st; off := 0;
                             len := 256 * (mbw d * mbh d);
                             cap := 384 * (mbw d * mbh d) |};
               ycbcr.Cb := {| arr := length st;
                              off := 256 * (mbw d * mbh d);
                              len := 64 * (mbw d * mbh d);
                              cap := 128 * (mbw d * mbh d) |};
               ycbcr.Cr := {| arr := length st;
                              off := 320 * (mbw d * mbh d);
                              len := 64 * (mbw d * mbh d);
                              cap := 64 * (mbw d * mbh d) |};
               ycbcr.SubsampleRatio_ := ycbcr.SubsampleRatio420;
               ycbcr.YStride := 16 * mbw d;
               ycbcr.CStride := 8 * mbw d;
               ycbcr.Rect :=
                 {| image.Min := {| image.X := 0; image.Y := 0 |};
                    image.Max := {| image.X := Width (frameHeader d);
                                    image.Y := Height (frameHeader d) |} |}
            |})).
Proof.
  intros Hok Hcov.
  destruct (geometry_ok_grid d Hok) as (Hw & Hh).
  destruct Hok as (HW & HH & _).
  assert (Hn : 0 <= mbw d * mbh d) by nia.
  unfold ensureImg. rewrite Hcov. unfold make, reslice. cbn [cap].
  change (1 * 16 * 16 + 2 * 8 * 8) with 384.
  change (0 * 16 * 16 + 0 * 8 * 8) with 0.
  change (1 * 16 * 16 + 0 * 8 * 8) with 256.
  change (1 * 16 * 16 + 1 * 8 * 8) with 320.
  destruct (Z.ltb_spec (mbw d * mbh d * 384) 0); [lia|].
  cbn [cap arr off len].
  repeat match goal with
         | |- context [?a <=? ?b] =>
           destruct (Z.leb_spec a b); [cbn [andb]|lia]
         end.
  unfold image.Rect.
  destruct (Z.ltb_spec (Width (frameHeader d)) 0); [lia|].
  destruct (Z.ltb_spec (Height (frameHeader d)) 0); [lia|].
  rewrite (Z.mul_comm 384).
  match goal with
  | |- Some (_, set_img d (Some ?m1)) = Some (_, set_img d (Some ?m2)) =>
    replace m1 with m2; [reflexivity|]
  end.
  f_equal; try lia; f_equal; lia.
Qed.

(** C10: when [ensureImg] allocates, it makes one fresh zeroed array of
    384 bytes per macroblock and installs, in one step, an image whose
    three planes are consecutive, disjoint windows of that array, of
    256, 64 and 64 bytes per macroblock, with strides 16*mbw and 8*mbw
    and the rectangle from (0,0) to (Width,Height); nothing else in the
    decoder changes, and each plane shows its share of the zeroed bytes. *)
Theorem ensureImg_allocation st d :
  geometry_ok d ->
  covers d = false ->
  let n := mbw d * mbh d in
  exists m,
    ensureImg st d
    = Some (st ++ [repeat Byte.x00 (Z.to_nat (384 * n))],
            set_img d (Some m))
    /\ arr (ycbcr.Y m) = length st
    /\ arr (ycbcr.Cb m) = length st
    /\ arr (ycbcr.Cr m) = length st
    /\ off (ycbcr.Y m) = 0
    /\ len (ycbcr.Y m) = 256 * n
    /\ off (ycbcr.Cb m) = off (ycbcr.Y m) + len (ycbcr.Y m)
    /\ len (ycbcr.Cb m) = 64 * n
    /\ off (ycbcr.Cr m) = off (ycbcr.Cb m) + len (ycbcr.Cb m)
    /\ len (ycbcr.Cr m) = 64 * n
    /\ off (ycbcr.Cr m) + len (ycbcr.Cr m) = 384 * n
    /\ ycbcr.YStride m = 16 * mbw d
    /\ ycbcr.CStride m = 8 * mbw d
    /\ ycbcr.SubsampleRatio_ m = ycbcr.SubsampleRatio420
    /\ ycbcr.Rect m
       = {| image.Min := {| image.X := 0; image.Y := 0 |};
            image.Max := {| image.X := Width (frameHeader d);
                            image.Y := Height (frameHeader d) |} |}
    /\ (let st' := st ++ [repeat Byte.x00 (Z.to_nat (384 * n))] in
        contents st' (ycbcr.Y m) = repeat Byte.x00 (Z.to_nat (256 * n))
        /\ contents st' (ycbcr.Cb m) = repeat Byte.x00 (Z.to_nat (64 * n))
        /\ contents st' (ycbcr.Cr m) = repeat Byte.x00 (Z.to_nat (64 * n))).
Proof.
  intros Hok Hcov. cbv zeta.
  destruct (geometry_ok_grid d Hok) as (Hw & Hh).
  assert (Hn : 0 <= mbw d * mbh d) by nia.
  eexists. split; [apply ensureImg_fresh; assumption|].
  cbn [ycbcr.Y ycbcr.Cb ycbcr.Cr ycbcr.YStride ycbcr.CStride ycbcr.Rect
       ycbcr.SubsampleRatio_ arr off len].
  unfold contents. cbn [arr off len]. rewrite nth_middle.
  repeat split; try lia; apply window_of_zeros; lia.
Qed.

(** Under the invariant of the decoder, [ensureImg] never panics; it
    leaves an image in place and touches no other field. *)
Lemma ensureImg_total st d :
  geometry_ok d ->
  exists st' m,
    ensureImg st d = Some (st', set_img d (Some m)).
Proof.
  intros Hok. destruct (covers d) eqn:Hcov.
  - rewrite ensureImg_reuse by assumption.
    unfold covers in Hcov. destruct d as [lr [m|] w h fh p ops s];
      [|discriminate].
    exists st, m. reflexivity.
  - rewrite (ensureImg_fresh st d Hok Hcov). eauto.
Qed.

(** Where the claim of idempotence does hold: when the stored width and
    height are multiples of 16, a second call finds the image of the
    first and allocates nothing. *)
Lemma ensureImg_idempotent_aligned st d st' d' :
  geometry_ok d ->
  Width (frameHeader d) mod 16 = 0 ->
  Height (frameHeader d) mod 16 = 0 ->
  ensureImg st d = Some (st', d') ->
  ensureImg st' d' = Some (st', d').
Proof.
  intros Hok Hw Hh Hrun. destruct (covers d) eqn:Hcov.
  - rewrite ensureImg_reuse in Hrun by assumption.
    inversion Hrun; subst. now apply ensureImg_reuse.
  - rewrite (ensureImg_fresh st d Hok Hcov) in Hrun.
    inversion Hrun; subst.
    apply ensureImg_reuse. unfold covers. cbn [img set_img mbw mbh].
    cbn [ycbcr.Rect image.Min image.Max image.X image.Y].
    destruct Hok as (HW & HH & -> & ->).
    rewrite !Z.shiftr_div_pow2 by lia. change (2 ^ 4) with 16.
    pose proof (Z.div_mod (Width (frameHeader d) + 15) 16).
    pose proof (Z.div_mod (Height (frameHeader d) + 15) 16).
    pose proof (Z.div_mod (Width (frameHeader d)) 16).
    pose proof (Z.div_mod (Height (frameHeader d)) 16).
    assert ((Width (frameHeader d) + 15) / 16 = Width (frameHeader d) / 16).
    { symmetry. apply (Z.div_unique _ _ _ 15); lia. }
    assert ((Height (frameHeader d) + 15) / 16 = Height (frameHeader d) / 16).
    { symmetry. apply (Z.div_unique _ _ _ 15); lia. }
    repeat match goal with
           | |- context [?a <=? ?b] => destruct (Z.leb_spec a b); [|lia]
           end.
    reflexivity.
Qed.
End Allocation.

Lemma ensureImg_allocation_witness :
  exists m,
    ensureImg [] after_key_100x100
    = Some ([] ++ [repeat Byte.x00 (Z.to_nat (384 * (7 * 7)))],
            set_img after_key_100x100 (Some m))
    /\ len (ycbcr.Y m) = 256 * (7 * 7).
Proof.
  destruct (ensureImg_allocation [] after_key_100x100) as (m & H & Hrest).
  - repeat split; vm_compute; congruence.
  - reflexivity.
  - exists m. split; [exact H|]. apply Hrest.
Defined.

(** C7 fails on the code: after a 100x100 key frame the grid is 7 by 7;
    the first call allocates array 0, and a second call, with the same
    grid, allocates array 1 and moves the image to it, because the image
    rectangle (100 wide) is compared with 16*7 = 112. *)
Theorem ensureImg_reallocates_same_grid :
  mbw after_key_100x100 = 7 /\ mbh after_key_100x100 = 7
  /\ ensureImg_twice [] after_key_100x100
     = Some ((1%nat, Some 0%nat), (2%nat, Some 1%nat)).
Proof. repeat split. Qed.

(** ** The first partition *)

Section FirstPartition.
Context {partition : Type} {partition_ops : partition.ops partition}.
Implicit Type d : Decoder partition.

(** [parseOtherHeaders] neither reads nor writes the image. *)
Lemma parseOtherHeaders_set_img d x :
  parseOtherHeaders (set_img d x)
  = (fst (parseOtherHeaders d), set_img (snd (parseOtherHeaders d)) x).
Proof.
  unfold parseOtherHeaders. cbn [r frameHeader set_img].
  destruct (limitReader.ReadFull _ _) as [[b e] lr].
  destruct e as [e|]; [reflexivity|].
  cbn [frameHeader set_fp set_r set_img fp].
  destruct (KeyFrame (frameHeader d));
    cbn [frameHeader set_fp set_r set_img fp];
    match goal with
    | |- context [partition.unexpectedEOF ?p] =>
      destruct (partition.unexpectedEOF p)
    end; reflexivity.
Qed.

(** [DecodeFrame] in terms of [parseOtherHeaders], when [ensureImg]
    leaves image [m]. *)
Lemma DecodeFrame_unfold st d st' m :
  ensureImg st d = Some (st', set_img d (Some m)) ->
  DecodeFrame st d
  = Some (match fst (parseOtherHeaders d) with
          | Some e => (None, Some e)
          | None => (Some m, None)
          end, st', set_img (snd (parseOtherHeaders d)) (Some m)).
Proof.
  intros Hen. unfold DecodeFrame. rewrite Hen, parseOtherHeaders_set_img.
  destruct (parseOtherHeaders d) as [[e|] d1]; reflexivity.
Qed.

(** The error of the read of the first partition. *)
Lemma parseOtherHeaders_read_error d e :
  snd (fst (limitReader.ReadFull (r d)
              (repeat Byte.x00
                 (Z.to_nat (FirstPartitionLen (frameHeader d))))))
  = Some e ->
  fst (parseOtherHeaders d) = Some e
  /\ fp (snd (parseOtherHeaders d)) = fp d.
Proof.
  unfold parseOtherHeaders.
  destruct (limitReader.ReadFull _ _) as [[b e'] lr]. cbn [fst snd].
  intros ->. split; reflexivity.
Qed.

(** C8 (as the code has it): when the budget or the source holds fewer
    bytes than the declared first-partition length, [DecodeFrame] returns
    a nil image and an error: [io.ErrUnexpectedEOF], except that the
    error is [os.EOF] when the budget covers the length and the source
    has no byte left at all. *)
Theorem DecodeFrame_short_partition st d :
  geometry_ok d ->
  avail (r d) < FirstPartitionLen (frameHeader d) ->
  exists st' d',
    DecodeFrame st d
    = Some (None,
            Some (if (FirstPartitionLen (frameHeader d)
                      <=? limitReader.n (r d))
                     && (length (limitReader.r (r d)) =? 0)%nat
                  then os_EOF else io_ErrUnexpectedEOF),
            st', d').
Proof.
  intros Hok Hshort.
  destruct (ensureImg_total st d Hok) as (st' & m & Hen).
  rewrite (DecodeFrame_unfold st d st' m Hen).
  set (e := if _ && _ then os_EOF else io_ErrUnexpectedEOF).
  destruct (parseOtherHeaders_read_error d e) as (He & _).
  2:{ rewrite He. eauto. }
  rewrite ReadFull_error, repeat_length. subst e. unfold avail in Hshort.
  destruct (Z.ltb_spec (limitReader.n (r d))
              (Z.of_nat (Z.to_nat (FirstPartitionLen (frameHeader d))))).
  - destruct (Z.leb_spec (FirstPartitionLen (frameHeader d))
                (limitReader.n (r d))); [lia | reflexivity].
  - destruct (Nat.leb_spec (Z.to_nat (FirstPartitionLen (frameHeader d)))
                (length (limitReader.r (r d)))); [lia|].
    destruct (Z.leb_spec (FirstPartitionLen (frameHeader d))
                (limitReader.n (r d))); [|lia].
    cbn [andb]. now destruct (length (limitReader.r (r d)) =? 0)%nat.
Qed.
End FirstPartition.

Lemma DecodeFrame_short_partition_witness :
  returned (DecodeFrame [] after_inter_len5) = Some (None, Some os_EOF).
Proof.
  destruct (DecodeFrame_short_partition [] after_inter_len5)
    as (st' & d' & H).
  - repeat split; vm_compute; congruence.
  - reflexivity.
  - rewrite H. reflexivity.
Defined.

(** C8, as the claim words it, fails: the header declares 5 bytes, none
    remains in the source, and [DecodeFrame] fails with [os.EOF], not with
    [io.ErrUnexpectedEOF]. *)
Lemma DecodeFrame_empty_source_is_EOF :
  FirstPartitionLen (frameHeader after_inter_len5) = 5
  /\ length (limitReader.r (r after_inter_len5)) = 0%nat
  /\ returned (DecodeFrame [] after_inter_len5) = Some (None, Some os_EOF)
  /\ Some os_EOF <> Some io_ErrUnexpectedEOF.
Proof.
  split; [reflexivity|]. split; [reflexivity|].
  split; [reflexivity | discriminate].
Qed.

(** ** The reads on the first partition, observed by logging them *)

Section FlagReads.
Context {P : Type} {P_ops : partition.ops P}.
Implicit Type d : Decoder (Logged.t P).

Lemma Logged_init (p : Logged.t P) (bytes : list byte) :
  partition.init p bytes
  = {| Logged.inner := partition.init (Logged.inner p) bytes;
       Logged.log := Logged.log p ++ [Logged.call_init bytes] |}.
Proof. reflexivity. Qed.

Lemma Logged_readUint (p : Logged.t P) (prob n : Z) :
  snd (partition.readUint p prob n)
  = {| Logged.inner := snd (partition.readUint (Logged.inner p) prob n);
       Logged.log := Logged.log p ++ [Logged.call_readUint prob n] |}.
Proof.
  cbn [partition.readUint Logged_ops].
  now destruct (partition.readUint (Logged.inner p) prob n).
Qed.

Lemma Logged_unexpectedEOF (p : Logged.t P) :
  partition.unexpectedEOF p = partition.unexpectedEOF (Logged.inner p).
Proof. reflexivity. Qed.

(** C9: once the first partition is loaded and its decoder initialized,
    [parseOtherHeaders] makes exactly two reads on it, each of one bit at
    the uniform probability, if the frame is a key frame, and none
    otherwise; the values read go nowhere (no other field of the decoder
    changes); the error is [io.ErrUnexpectedEOF] if the decoder's flag is
    set after these reads and nil otherwise, and [DecodeFrame] then
    fails with that error and a nil image. *)
Theorem parseOtherHeaders_flag_reads d bytes rest :
  limitReader.r (r d) = bytes ++ rest ->
  Z.of_nat (length bytes) = FirstPartitionLen (frameHeader d) ->
  FirstPartitionLen (frameHeader d) <= limitReader.n (r d) ->
  let key := KeyFrame (frameHeader d) in
  let err := fst (parseOtherHeaders d) in
  let d' := snd (parseOtherHeaders d) in
  let p0 := partition.init (Logged.inner (fp d)) bytes in
  Logged.log (fp d')
  = Logged.log (fp d) ++ Logged.call_init bytes :: flag_reads key
  /\ count_reads (Logged.log (fp d'))
     = (count_reads (Logged.log (fp d)) + if key then 2 else 0)%nat
  /\ Logged.inner (fp d')
     = (if key
        then snd (partition.readUint
                    (snd (partition.readUint p0 uniformProb 1))
                    uniformProb 1)
        else p0)
  /\ err = (if partition.unexpectedEOF (Logged.inner (fp d'))
            then Some io_ErrUnexpectedEOF else None)
  /\ frameHeader d' = frameHeader d /\ img d' = img d
  /\ mbw d' = mbw d /\ mbh d' = mbh d /\ op d' = op d
  /\ scratch d' = scratch d
  /\ (forall st,
      geometry_ok d ->
      partition.unexpectedEOF (Logged.inner (fp d')) = true ->
      returned (DecodeFrame st d) = Some (None, Some io_ErrUnexpectedEOF)).
Proof.
  intros Hsrc Hlen Hn. cbv zeta.
  assert (Hrun :
    parseOtherHeaders d
    = (let p1 := if KeyFrame (frameHeader d)
                 then snd (partition.readUint
                             (snd (partition.readUint
                                     (partition.init (fp d) bytes)
                                     uniformProb 1))
                             uniformProb 1)
                 else partition.init (fp d) bytes in
       (if partition.unexpectedEOF p1
        then Some io_ErrUnexpectedEOF else None,
        set_fp (set_r d {| limitReader.r := rest;
                           limitReader.n :=
                             limitReader.n (r d)
                             - Z.of_nat (length bytes) |})
               p1))).
  { unfold parseOtherHeaders.
    rewrite (ReadFull_enough (r d) _ bytes rest Hsrc)
      by (rewrite repeat_length; lia).
    rewrite repeat_length, <- Hlen, Nat2Z.id.
    cbn [frameHeader fp set_fp set_r].
    destruct (KeyFrame (frameHeader d)); cbn [fp set_fp]; cbv zeta;
      match goal with
      | |- context [partition.unexpectedEOF ?p] =>
        destruct (partition.unexpectedEOF p)
      end; reflexivity. }
  assert (Hcount : forall l l',
             count_reads (l ++ l') = (count_reads l + count_reads l')%nat).
  { intros. unfold count_reads. now rewrite filter_app, length_app. }
  rewrite Hrun. cbv zeta. cbn [fst snd fp set_fp].
  destruct (KeyFrame (frameHeader d)); cbn [flag_reads].
  - rewrite !Logged_readUint, Logged_init. cbn [Logged.inner Logged.log].
    rewrite <- !app_assoc. cbn [app].
    split; [reflexivity|]. split; [now rewrite Hcount|].
    split; [reflexivity|]. split; [reflexivity|].
    do 6 (split; [reflexivity|]).
    intros st Hok Hflag.
    destruct (ensureImg_total st d Hok) as (st' & m & Hen).
    rewrite (DecodeFrame_unfold st d st' m Hen), Hrun. cbv zeta.
    cbn [fst]. rewrite !Logged_readUint, Logged_init.
    rewrite Logged_unexpectedEOF. cbn [Logged.inner].
    rewrite Hflag. reflexivity.
  - rewrite Logged_init. cbn [Logged.inner Logged.log].
    split; [reflexivity|]. split; [now rewrite Hcount|].
    split; [reflexivity|]. split; [reflexivity|].
    do 6 (split; [reflexivity|]).
    intros st Hok Hflag.
    destruct (ensureImg_total st d Hok) as (st' & m & Hen).
    rewrite (DecodeFrame_unfold st d st' m Hen), Hrun. cbv zeta.
    cbn [fst]. rewrite Logged_init.
    rewrite Logged_unexpectedEOF. cbn [Logged.inner].
    rewrite Hflag. reflexivity.
Qed.
End FlagReads.

Lemma parseOtherHeaders_flag_reads_witness :
  Logged.log (fp (snd (parseOtherHeaders after_key_len2)))
  = [Logged.call_init [Byte.xff; Byte.x01];
     Logged.call_readUint uniformProb 1;
     Logged.call_readUint uniformProb 1].
Proof.
  pose proof (parseOtherHeaders_flag_reads
                after_key_len2 [Byte.xff; Byte.x01] []
                eq_refl eq_refl ltac:(vm_compute; congruence)) as H.
  cbv zeta in H. destruct H as (H & _). exact H.
Defined.

(** ** The header 0x10 0x00 0x00 and the empty first partition *)

Section EmptyPartition.
Context {partition : Type} {partition_ops : partition.ops partition}.
Implicit Type d : Decoder partition.

(** The path of a header that is not a key frame's. *)
Lemma DecodeFrameHeader_inter d b0 b1 b2 rest :
  limitReader.r (r d) = b0 :: b1 :: b2 :: rest ->
  3 <= limitReader.n (r d) ->
  Z.testbit (byte.unsigned b0) 0 = true ->
  exists fh d',
    DecodeFrameHeader d = (fh, None, d')
    /\ fh = frameHeader d'
    /\ r d' = {| limitReader.r := rest;
                 limitReader.n := limitReader.n (r d) - 3 |}.
Proof.
  intros Hsrc Hn Hbit. unfold DecodeFrameHeader.
  rewrite (read_scratch_enough d 3 [b0; b1; b2] rest) by (auto; simpl; lia).
  cbv [at_ nth]. cbn [KeyFrame].
  rewrite land_1_is_0, Hbit. cbn [negb].
  eexists _, _. split; [reflexivity|]. split; reflexivity.
Qed.

(** C4 (as the code has it): the bytes 0x10 0x00 0x00 open a key frame,
    with version 0, the show-frame flag set and a first partition of
    length 0. The interframe header with version 0, no show-frame flag
    and length 0 is 0x01 0x00 0x00: [DecodeFrameHeader] returns it
    without error, and the [DecodeFrame] that follows, with no
    first-partition byte to read, succeeds and returns the image, given
    a partition whose [init] clears its flag. *)
Theorem header_bit0_and_empty_partition d rest st :
  (forall p b, partition.unexpectedEOF (partition.init p b) = false) ->
  geometry_ok d ->
  3 <= limitReader.n (r d) ->
  (limitReader.r (r d) = Byte.x10 :: Byte.x00 :: Byte.x00 :: rest ->
   let h := frameHeader (snd (DecodeFrameHeader d)) in
   KeyFrame h = true /\ VersionNumber h = 0 /\ ShowFrame h = true
   /\ FirstPartitionLen h = 0)
  /\ (limitReader.r (r d) = Byte.x01 :: Byte.x00 :: Byte.x00 :: rest ->
      exists fh d',
        DecodeFrameHeader d = (fh, None, d')
        /\ KeyFrame fh = false /\ VersionNumber fh = 0
        /\ ShowFrame fh = false /\ FirstPartitionLen fh = 0
        /\ exists m st' d'',
             DecodeFrame st d' = Some (Some m, None, st', d'')).
Proof.
  intros Hinit Hok Hn. split; intros Hsrc.
  - destruct (DecodeFrameHeader d) as [[fh err] d'] eqn:Hrun.
    destruct (DecodeFrameHeader_start d _ _ _ _ fh err d' Hsrc Hn Hrun)
      as (Hk & Hv & Hs & Hl & _).
    cbv zeta in *. cbn [snd]. rewrite Hk, Hv, Hs, Hl.
    repeat split.
  - destruct (DecodeFrameHeader_inter d _ _ _ _ Hsrc Hn eq_refl)
      as (fh & d' & Hrun & Hfh & Hr).
    destruct (DecodeFrameHeader_start d _ _ _ _ fh None d' Hsrc Hn Hrun)
      as (Hk & Hv & Hs & Hl & _).
    cbv zeta in *. rewrite <- Hfh in Hk, Hv, Hs, Hl.
    exists fh, d'. split; [exact Hrun|].
    split; [rewrite Hk; reflexivity|]. split; [rewrite Hv; reflexivity|].
    split; [rewrite Hs; reflexivity|]. split; [rewrite Hl; reflexivity|].
    assert (Hok' : geometry_ok d').
    { pose proof (geometry_ok_DecodeFrameHeader d Hok) as H.
      now rewrite Hrun in H. }
    destruct (ensureImg_total st d' Hok') as (st' & m & Hen).
    rewrite (DecodeFrame_unfold st d' st' m Hen).
    assert (Hparse : fst (parseOtherHeaders d') = None).
    { unfold parseOtherHeaders. rewrite <- Hfh, Hl.
      change (Z.to_nat _) with 0%nat. cbn [repeat].
      rewrite (ReadFull_enough (r d') [] [] rest)
        by (rewrite ?Hr; cbn; auto; lia).
      cbn [frameHeader set_r set_fp fp]. rewrite <- Hfh, Hk.
      change (Z.land (byte.unsigned Byte.x01) 1 =? 0) with false.
      cbv iota. cbn [fp set_fp]. rewrite Hinit. reflexivity. }
    rewrite Hparse. eauto.
Qed.
End EmptyPartition.

Lemma header_bit0_and_empty_partition_witness :
  exists fh d',
    DecodeFrameHeader (fresh [Byte.x01; Byte.x00; Byte.x00] 3)
    = (fh, None, d')
    /\ KeyFrame fh = false /\ VersionNumber fh = 0
    /\ ShowFrame fh = false /\ FirstPartitionLen fh = 0
    /\ exists m st' d'', DecodeFrame [] d' = Some (Some m, None, st', d'').
Proof.
  assert (Hinit : forall (p : BoolDecoder.t) (b : list byte),
             partition.unexpectedEOF (partition.init p b) = false)
    by reflexivity.
  assert (Hok : geometry_ok (fresh [Byte.x01; Byte.x00; Byte.x00] 3))
    by (repeat split; vm_compute; congruence).
  assert (Hn : 3 <= limitReader.n (r (fresh [Byte.x01; Byte.x00; Byte.x00] 3)))
    by (simpl; lia).
  destruct (header_bit0_and_empty_partition
              (fresh [Byte.x01; Byte.x00; Byte.x00] 3) [] []
              Hinit Hok Hn) as (_ & H).
  apply H. reflexivity.
Defined.

(** C4, as the claim words it, fails: on 0x10 0x00 0x00 the decoder finds
    a key frame with the show-frame flag set, asks for the seven bytes of a
    key-frame header and, the budget being spent, returns an error. *)
Lemma header_10_00_00_is_key_frame :
  KeyFrame (frameHeader
              (snd (DecodeFrameHeader
                      (fresh [Byte.x10; Byte.x00; Byte.x00] 3)))) = true
  /\ ShowFrame (frameHeader
                  (snd (DecodeFrameHeader
                          (fresh [Byte.x10; Byte.x00; Byte.x00] 3)))) = true
  /\ snd (fst (DecodeFrameHeader (fresh [Byte.x10; Byte.x00; Byte.x00] 3)))
     = Some io_ErrUnexpectedEOF
  /\ KeyFrame (fst (fst (DecodeFrameHeader (fresh key_176x144 10)))) = true
  /\ ShowFrame (fst (fst (DecodeFrameHeader (fresh key_176x144 10)))) = true.
Proof. repeat split. Qed.

(** The same defect lets the buffer shrink: a 100x1000 frame gets an array
    of 7*63*384 bytes; the 100x16 frame that follows has a grid of 7 by 1,
    which the old image does not cover in the eyes of the test, and gets a
    new array of 7*1*384 bytes. *)
Lemma ensureImg_shrinks :
  tall_then_short = Some ([169344; 2688], Some 1%nat).
Proof. vm_compute. reflexivity. Qed.

(** ** The boolean decoder of the spec *)

(** [init] clears the flag, whatever the buffer. *)
Lemma BoolDecoder_init_clears (p : BoolDecoder.t) (bytes : list byte) :
  BoolDecoder.exhausted (BoolDecoder.init p bytes) = false.
Proof. reflexivity. Qed.

Lemma BoolDecoder_renormalize_exhausted (fuel : nat) (p : BoolDecoder.t) :
  BoolDecoder.exhausted (BoolDecoder.renormalize fuel p)
  = BoolDecoder.exhausted p.
Proof.
  revert p. induction fuel as [|fuel IH]; intros p; cbn [BoolDecoder.renormalize].
  - reflexivity.
  - destruct (BoolDecoder.range p <? 128); [now rewrite IH | reflexivity].
Qed.

(** The flag is sticky: no read clears it. *)
Lemma BoolDecoder_readBool_sticky (p : BoolDecoder.t) (prob : Z) :
  BoolDecoder.exhausted p = true ->
  BoolDecoder.exhausted (snd (BoolDecoder.readBool p prob)) = true.
Proof.
  intros Hex. unfold BoolDecoder.readBool. cbn [snd].
  rewrite BoolDecoder_renormalize_exhausted.
  assert (Hfill : BoolDecoder.exhausted (BoolDecoder.fill p) = true).
  { unfold BoolDecoder.fill.
    now destruct (nth_error (BoolDecoder.buf p) (BoolDecoder.pos p)). }
  destruct (BoolDecoder.nBits p <? 8);
    match goal with
    | |- context [if ?c then _ else _] => destruct c
    end; assumption.
Qed.

(** A read on a freshly initialized empty partition sets the flag. *)
Lemma BoolDecoder_read_empty (p : BoolDecoder.t) (prob : Z) :
  BoolDecoder.exhausted
    (snd (BoolDecoder.readBool (BoolDecoder.init p []) prob)) = true.
Proof.
  unfold BoolDecoder.readBool. cbn [snd].
  rewrite BoolDecoder_renormalize_exhausted.
  cbn [BoolDecoder.init BoolDecoder.nBits].
  change (0 <? 8) with true. cbv iota.
  match goal with
  | |- context [if ?c then _ else _] => destruct c
  end; reflexivity.
Qed.

(** * Further properties *)

(** ** The bounded reader: what is delivered *)

(** What a successful read returns and leaves. *)
Lemma ReadFull_success_prefix (lr : limitReader.t) (p p' : list byte)
    (lr' : limitReader.t) :
  limitReader.ReadFull lr p = (p', None, lr') ->
  p' = firstn (length p) (limitReader.r lr)
  /\ length p' = length p
  /\ limitReader.r lr = p' ++ limitReader.r lr'
  /\ limitReader.n lr' = limitReader.n lr - Z.of_nat (length p)
  /\ 0 <= limitReader.n lr'.
Proof.
  intros Hrun.
  pose proof (ReadFull_error lr p) as Herr. rewrite Hrun in Herr.
  cbn [fst snd] in Herr.
  destruct (Z.ltb_spec (limitReader.n lr) (Z.of_nat (length p))) as [Hn|Hn];
    [discriminate|].
  destruct (Nat.leb_spec (length p) (length (limitReader.r lr))) as [Hs|Hs].
  2:{ destruct (length (limitReader.r lr) =? 0)%nat; discriminate. }
  pose proof (ReadFull_enough lr p (firstn (length p) (limitReader.r lr))
                (skipn (length p) (limitReader.r lr))) as Hok.
  rewrite firstn_skipn, length_firstn, Nat.min_l in Hok by assumption.
  rewrite (Hok eq_refl eq_refl Hn) in Hrun.
  inversion Hrun; subst; clear Hrun. cbn [limitReader.r limitReader.n].
  rewrite firstn_skipn, length_firstn, Nat.min_l by assumption.
  repeat split; lia.
Qed.

(** X1: a read that succeeds delivers exactly the first [len(p)] bytes of
    the source, in order, and leaves the rest of the source for the next
    read; nothing of the old contents of [p] survives, and the budget left
    is not negative. *)
Theorem ReadFull_success_delivers_prefix (lr : limitReader.t) (p p' : list byte)
    (lr' : limitReader.t) :
  limitReader.ReadFull lr p = (p', None, lr') ->
  p' = firstn (length p) (limitReader.r lr)
  /\ length p' = length p
  /\ limitReader.r lr = p' ++ limitReader.r lr'
  /\ limitReader.n lr' = limitReader.n lr - Z.of_nat (length p)
  /\ 0 <= limitReader.n lr'.
Proof. exact (ReadFull_success_prefix lr p p' lr'). Qed.

Lemma ReadFull_success_delivers_prefix_witness :
  [Byte.x0a; Byte.x0b]
  = firstn (length [Byte.x00; Byte.x00])
      (limitReader.r {| limitReader.r := [Byte.x0a; Byte.x0b; Byte.x0c];
                        limitReader.n := 5 |}).
Proof.
  apply (ReadFull_success_delivers_prefix
           {| limitReader.r := [Byte.x0a; Byte.x0b; Byte.x0c];
              limitReader.n := 5 |}
           [Byte.x00; Byte.x00] [Byte.x0a; Byte.x0b]
           {| limitReader.r := [Byte.x0c]; limitReader.n := 3 |}
           eq_refl).
Defined.

(** X2: a read that fails leaves its mark: beyond the budget it touches
    neither the buffer nor the source; within the budget it drains the
    source, copies the bytes it found over the front of [p], keeps the
    rest of [p] as it was, and charges the bytes found to the budget. *)
Theorem ReadFull_failure_effects (lr : limitReader.t) (p p' : list byte)
    (e : Error) (lr' : limitReader.t) :
  limitReader.ReadFull lr p = (p', Some e, lr') ->
  (limitReader.n lr < Z.of_nat (length p) /\ p' = p /\ lr' = lr)
  \/ (Z.of_nat (length p) <= limitReader.n lr
      /\ (length (limitReader.r lr) < length p)%nat
      /\ p' = limitReader.r lr ++ skipn (length (limitReader.r lr)) p
      /\ length p' = length p
      /\ limitReader.r lr' = []
      /\ limitReader.n lr'
         = limitReader.n lr - Z.of_nat (length (limitReader.r lr))).
Proof.
  unfold limitReader.ReadFull, io_ReadFull.
  destruct (Z.ltb_spec (limitReader.n lr) (Z.of_nat (length p))) as [Hn|Hn].
  { intros H; inversion H; subst. left. repeat split; assumption. }
  rewrite length_firstn.
  destruct (Nat.le_gt_cases (length p) (length (limitReader.r lr))) as [Hs|Hs].
  { rewrite Nat.min_l, Nat.eqb_refl by assumption. discriminate. }
  rewrite Nat.min_r by lia. rewrite firstn_all2 by lia.
  rewrite skipn_all.
  intros H; inversion H; subst; clear H. right.
  cbn [limitReader.r limitReader.n].
  repeat split; try lia. rewrite length_app, length_skipn. lia.
Qed.

Lemma ReadFull_failure_effects_witness :
  (8 < Z.of_nat (length [Byte.x00; Byte.x00; Byte.x00])
   /\ [Byte.x01; Byte.x02; Byte.x00] = [Byte.x00; Byte.x00; Byte.x00]
   /\ {| limitReader.r := []; limitReader.n := 6 |}
      = {| limitReader.r := [Byte.x01; Byte.x02]; limitReader.n := 8 |})
  \/ (Z.of_nat (length [Byte.x00; Byte.x00; Byte.x00]) <= 8
      /\ (length [Byte.x01; Byte.x02] < length [Byte.x00; Byte.x00; Byte.x00])%nat
      /\ [Byte.x01; Byte.x02; Byte.x00]
         = [Byte.x01; Byte.x02] ++ skipn 2 [Byte.x00; Byte.x00; Byte.x00]
      /\ length [Byte.x01; Byte.x02; Byte.x00]
         = length [Byte.x00; Byte.x00; Byte.x00]
      /\ ([] : Reader) = []
      /\ 6 = 8 - Z.of_nat (length [Byte.x01; Byte.x02])).
Proof.
  exact (ReadFull_failure_effects
           {| limitReader.r := [Byte.x01; Byte.x02]; limitReader.n := 8 |}
           [Byte.x00; Byte.x00; Byte.x00] [Byte.x01; Byte.x02; Byte.x00]
           io_ErrUnexpectedEOF
           {| limitReader.r := []; limitReader.n := 6 |} eq_refl).
Defined.

(** X3: reads compose: reading [p] and then [q] succeeds exactly when
    reading a buffer of their joint length succeeds, and then the two
    reads deliver, end to end, what the one read delivers and leave the
    same reader. *)
Theorem ReadFull_then_ReadFull (lr : limitReader.t) (p q : list byte) :
  let one := limitReader.ReadFull lr (p ++ q) in
  let first := limitReader.ReadFull lr p in
  let second := limitReader.ReadFull (snd first) q in
  (snd (fst one) = None
   <-> snd (fst first) = None /\ snd (fst second) = None)
  /\ (snd (fst one) = None ->
      fst (fst one) = fst (fst first) ++ fst (fst second)
      /\ snd one = snd second).
Proof.
  cbv zeta.
  destruct (limitReader.ReadFull lr (p ++ q)) as [[pq e] lr2] eqn:H12.
  destruct (limitReader.ReadFull lr p) as [[p' e1] lr1] eqn:H1.
  cbn [fst snd].
  destruct (limitReader.ReadFull lr1 q) as [[q' e2] lr1'] eqn:H2.
  cbn [fst snd].
  assert (Hfwd : e = None -> e1 = None /\ e2 = None
                              /\ pq = p' ++ q' /\ lr2 = lr1').
  { intros ->.
    destruct (ReadFull_success_prefix _ _ _ _ H12)
      as (Hpq & Hlen & Hsrc & Hn & Hn0).
    rewrite length_app in *.
    assert (Hp : limitReader.ReadFull lr p
                 = (firstn (length p) pq, None,
                    {| limitReader.r :=
                         skipn (length p) pq ++ limitReader.r lr2;
                       limitReader.n :=
                         limitReader.n lr - Z.of_nat (length p) |})).
    { apply ReadFull_enough;
        [ rewrite app_assoc, firstn_skipn; exact Hsrc
        | rewrite length_firstn; lia | lia ]. }
    rewrite Hp in H1. inversion H1; subst p' e1 lr1; clear H1.
    assert (Hq : limitReader.ReadFull
                   {| limitReader.r :=
                        skipn (length p) pq ++ limitReader.r lr2;
                      limitReader.n :=
                        limitReader.n lr - Z.of_nat (length p) |} q
                 = (skipn (length p) pq, None,
                    {| limitReader.r := limitReader.r lr2;
                       limitReader.n :=
                         limitReader.n lr - Z.of_nat (length p)
                         - Z.of_nat (length q) |})).
    { apply ReadFull_enough; cbn [limitReader.r limitReader.n];
        [ reflexivity | rewrite length_skipn; lia | lia ]. }
    rewrite Hq in H2. inversion H2; subst q' e2 lr1'; clear H2.
    rewrite firstn_skipn.
    destruct lr2 as [src2 n2]. cbn [limitReader.r limitReader.n] in *.
    repeat split. f_equal. lia. }
  split; [split|].
  - intros He. destruct (Hfwd He) as (? & ? & _). split; assumption.
  - intros [-> ->].
    destruct (ReadFull_success_prefix _ _ _ _ H1) as (_ & Hl1 & Hs1 & Hn1 & _).
    destruct (ReadFull_success_prefix _ _ _ _ H2) as (_ & Hl2 & Hs2 & Hn2 & Hn2').
    pose proof (ReadFull_error lr (p ++ q)) as Herr.
    rewrite H12 in Herr. cbn [fst snd] in Herr. rewrite Herr.
    rewrite length_app, Hs1, Hs2, !length_app.
    destruct (Z.ltb_spec (limitReader.n lr)
                (Z.of_nat (length p + length q))); [lia|].
    destruct (Nat.leb_spec (length p + length q)
                (length p' + (length q' + length (limitReader.r lr1'))));
      [reflexivity | lia].
  - intros He. destruct (Hfwd He) as (_ & _ & ? & ?). split; assumption.
Qed.

Lemma ReadFull_then_ReadFull_witness :
  fst (fst (limitReader.ReadFull
              {| limitReader.r := [Byte.x0a; Byte.x0b; Byte.x0c];
                 limitReader.n := 3 |}
              ([Byte.x00] ++ [Byte.x00; Byte.x00])))
  = [Byte.x0a] ++ [Byte.x0b; Byte.x0c].
Proof.
  pose proof (ReadFull_then_ReadFull
                {| limitReader.r := [Byte.x0a; Byte.x0b; Byte.x0c];
                   limitReader.n := 3 |}
                [Byte.x00] [Byte.x00; Byte.x00]) as H.
  cbv zeta in H. destruct H as (_ & H). destruct (H eq_refl) as (H1 & _).
  exact H1.
Defined.

(** X4: the budget is a hard gate: with a negative budget every read fails
    with [io.ErrUnexpectedEOF], even one of no bytes, and takes nothing;
    with a budget of zero or more, a read of no bytes succeeds and changes
    nothing, whether or not the source has any byte left. *)
Theorem ReadFull_budget_gate (lr : limitReader.t) (p : list byte) :
  (limitReader.n lr < 0 ->
   limitReader.ReadFull lr p = (p, Some io_ErrUnexpectedEOF, lr))
  /\ (0 <= limitReader.n lr ->
      limitReader.ReadFull lr [] = ([], None, lr)).
Proof.
  split; intros Hn.
  - unfold limitReader.ReadFull.
    destruct (Z.ltb_spec (limitReader.n lr) (Z.of_nat (length p)));
      [reflexivity | lia].
  - rewrite (ReadFull_enough lr [] [] (limitReader.r lr));
      cbn [length app]; try reflexivity; try lia.
    destruct lr as [src n]. cbn [limitReader.r limitReader.n]. f_equal.
    f_equal. lia.
Qed.

Lemma ReadFull_budget_gate_witness :
  limitReader.ReadFull {| limitReader.r := [Byte.x01]; limitReader.n := -1 |} []
  = ([], Some io_ErrUnexpectedEOF,
     {| limitReader.r := [Byte.x01]; limitReader.n := -1 |}).
Proof.
  apply (ReadFull_budget_gate
           {| limitReader.r := [Byte.x01]; limitReader.n := -1 |} []).
  simpl; lia.
Defined.

(** ** Where the stream stands after a header *)

Section HeaderConsumption.
Context {partition : Type} {partition_ops : partition.ops partition}.
Implicit Type d : Decoder partition.

Lemma DecodeFrameHeader_reader d :
  r (snd (DecodeFrameHeader d))
  = {| limitReader.r :=
         skipn (header_consumed (r d)) (limitReader.r (r d));
       limitReader.n :=
         limitReader.n (r d) - Z.of_nat (header_consumed (r d)) |}.
Proof.
  unfold header_consumed, DecodeFrameHeader, read_scratch, is_key.
  destruct d as [[src n] im w h fh p ops s].
  cbn [r limitReader.r limitReader.n].
  unfold limitReader.ReadFull, io_ReadFull.
  rewrite !length_scratch_to. cbn [limitReader.r limitReader.n].
  change (Z.of_nat 3) with 3.
  destruct (Z.ltb_spec n 3).
  { cbn. f_equal. lia. }
  destruct src as [|b0 [|b1 [|b2 src]]];
    try (cbn; f_equal; lia).
  cbn [firstn length Nat.eqb skipn app fst snd Nat.ltb Nat.leb].
  cbv [at_ nth]. cbn [KeyFrame set_frameHeader set_scratch set_r r scratch
                      frameHeader limitReader.r limitReader.n].
  rewrite land_1_is_0.
  destruct (Z.testbit (byte.unsigned b0) 0); cbn [negb];
    [cbn; f_equal; lia|].
  rewrite length_scratch_to. change (Z.of_nat 3) with 3.
  change (Z.of_nat 7) with 7.
  destruct (Z.ltb_spec (n - 3) 7), (Z.ltb_spec n 10); try lia;
    [cbn; f_equal; lia|].
  destruct src as [|b3 [|b4 [|b5 [|b6 [|b7 [|b8 [|b9 src]]]]]]];
    try (cbn; f_equal; lia).
  rewrite (Nat.min_r _ 10) by (cbn [length]; lia).
  cbn [firstn length Nat.eqb skipn app fst snd nth].
  destruct (negb _ || negb _ || negb _); cbn; f_equal; lia.
Qed.

(** The bytes a header call takes, outcome by outcome. *)
Lemma DecodeFrameHeader_consumed d :
  advanced (r d) (r (snd (DecodeFrameHeader d))) (header_consumed (r d))
  /\ (snd (fst (DecodeFrameHeader d)) = None ->
      header_consumed (r d) = if is_key (limitReader.r (r d)) then 10%nat
                              else 3%nat)
  /\ (snd (fst (DecodeFrameHeader d)) = Some (os_NewError invalid_format) ->
      header_consumed (r d) = 10%nat).
Proof.
  rewrite DecodeFrameHeader_reader, DecodeFrameHeader_error.
  unfold advanced, header_consumed, header_error.
  cbn [limitReader.r limitReader.n].
  destruct (Z.ltb_spec (limitReader.n (r d)) 3).
  { repeat split; try discriminate; cbn; lia. }
  destruct (Nat.ltb_spec (length (limitReader.r (r d))) 3).
  { destruct (Z.eqb_spec (Z.of_nat (length (limitReader.r (r d)))) 0).
    - repeat split; try discriminate; lia.
    - destruct (Z.ltb_spec (Z.of_nat (length (limitReader.r (r d)))) 3);
        [|lia].
      repeat split; try discriminate; lia. }
  destruct (Z.eqb_spec (Z.of_nat (length (limitReader.r (r d)))) 0); [lia|].
  destruct (Z.ltb_spec (Z.of_nat (length (limitReader.r (r d)))) 3); [lia|].
  destruct (is_key (limitReader.r (r d))); cbn [negb].
  2:{ repeat split; try discriminate; cbn; lia. }
  destruct (Z.ltb_spec (limitReader.n (r d)) 10).
  { repeat split; try discriminate; cbn; lia. }
  destruct (Z.eqb_spec (Z.of_nat (length (limitReader.r (r d)))) 3).
  { repeat split; try discriminate; lia. }
  destruct (Z.ltb_spec (Z.of_nat (length (limitReader.r (r d)))) 10).
  { repeat split; try discriminate; lia. }
  rewrite Nat.min_r by lia.
  destruct (sync_ok (limitReader.r (r d)));
    repeat split; try discriminate; cbn; lia.
Qed.

(** X5: after [DecodeFrameHeader], whatever its outcome, the source has
    lost exactly [header_consumed] bytes from its front and the budget has
    gone down by the same number: 3 for a frame that is not a key frame,
    10 for a complete key-frame header even when its sync code is wrong,
    3 when the budget stops a key frame's second read, and whatever was
    left when the source ends early. *)
Theorem DecodeFrameHeader_consumption d :
  advanced (r d) (r (snd (DecodeFrameHeader d))) (header_consumed (r d))
  /\ (snd (fst (DecodeFrameHeader d)) = None ->
      header_consumed (r d) = if is_key (limitReader.r (r d)) then 10%nat
                              else 3%nat)
  /\ (snd (fst (DecodeFrameHeader d)) = Some (os_NewError invalid_format) ->
      header_consumed (r d) = 10%nat).
Proof. exact (DecodeFrameHeader_consumed d). Qed.
End HeaderConsumption.

(** ** What a header call returns and what it leaves alone *)

Lemma version_range (a : Z) : 0 <= Z.land (Z.shiftr a 1) 7 <= 7.
Proof.
  change 7 with (Z.ones 3) at 1 2. rewrite Z.land_ones by lia.
  pose proof (Z.mod_pos_bound (Z.shiftr a 1) (2 ^ 3) eq_refl).
  change (2 ^ 3) with 8 in *. lia.
Qed.

Lemma first_partition_len_word (b0 b1 b2 : byte) :
  Z.lor (Z.lor (Z.shiftr (byte.unsigned b0) 5)
               (uint32 (Z.shiftl (byte.unsigned b1) 3)))
        (uint32 (Z.shiftl (byte.unsigned b2) 11))
  = le_word [b0; b1; b2] / 2 ^ 5.
Proof.
  rewrite <- Z.shiftr_div_pow2, le_word3_lor by lia. unfold uint32. byte_bits.
Qed.

Lemma le_word3_range (b0 b1 b2 : byte) : 0 <= le_word [b0; b1; b2] < 2 ^ 24.
Proof.
  pose proof (byte_range b0); pose proof (byte_range b1);
    pose proof (byte_range b2).
  cbn [le_word]. change (2 ^ 8) with 256. change (2 ^ 24) with 16777216. lia.
Qed.

Lemma first_partition_len_range (b0 b1 b2 : byte) :
  0 <= Z.lor (Z.lor (Z.shiftr (byte.unsigned b0) 5)
                    (uint32 (Z.shiftl (byte.unsigned b1) 3)))
             (uint32 (Z.shiftl (byte.unsigned b2) 11)) < 2 ^ 19.
Proof.
  rewrite first_partition_len_word. pose proof (le_word3_range b0 b1 b2).
  change (2 ^ 24) with 16777216 in *. change (2 ^ 5) with 32.
  change (2 ^ 19) with 524288.
  split; [apply Z.div_pos; lia | apply Z.div_lt_upper_bound; lia].
Qed.

Lemma size_range (lo hi : byte) :
  0 <= Z.lor (Z.shiftl (Z.land (byte.unsigned hi) 0x3f) 8) (byte.unsigned lo)
    < 2 ^ 14.
Proof. rewrite size_field. apply Z.mod_pos_bound. reflexivity. Qed.

Lemma scale_range (b : byte) : 0 <= Z.shiftr (byte.unsigned b) 6 <= 3.
Proof.
  rewrite Z.shiftr_div_pow2 by lia. change (2 ^ 6) with 64.
  pose proof (byte_range b).
  split; [apply Z.div_pos; lia|].
  apply Z.lt_succ_r. apply Z.div_lt_upper_bound; lia.
Qed.

Ltac six_parts := refine (conj _ (conj _ (conj _ (conj _ (conj _ _))))).

Section HeaderShape.
Context {partition : Type} {partition_ops : partition.ops partition}.
Implicit Type d : Decoder partition.

(** All that a header call does besides reading: what it returns, the
    fields it leaves untouched, and the ranges of the fields it stores. *)
Lemma DecodeFrameHeader_shape d fh err d' :
  DecodeFrameHeader d = (fh, err, d') ->
  img d' = img d /\ fp d' = fp d /\ op d' = op d
  /\ (err = None -> fh = frameHeader d')
  /\ (err <> None -> fh = FrameHeader_zero)
  /\ (fields_ok (frameHeader d) -> fields_ok (frameHeader d')).
Proof.
  unfold DecodeFrameHeader.
  pose proof (read_scratch_frame d 3) as H1.
  destruct (read_scratch d 3) as [[b e] d1].
  cbv zeta in H1; cbn [snd] in H1.
  destruct H1 as (Hfh & _ & _ & Him & Hfp & Hop).
  destruct e as [e|].
  { intros H; inversion H; subst; clear H.
    rewrite Hfh. six_parts; try assumption; try congruence; auto. }
  cbn [KeyFrame].
  assert (Hfirst : fields_ok (frameHeader d) ->
    fields_ok
      {| KeyFrame := Z.land (at_ b 0) 1 =? 0;
         VersionNumber := Z.land (Z.shiftr (at_ b 0) 1) 7;
         ShowFrame := Z.land (Z.shiftr (at_ b 0) 4) 1 =? 1;
         FirstPartitionLen :=
           Z.lor (Z.lor (Z.shiftr (at_ b 0) 5) (uint32 (Z.shiftl (at_ b 1) 3)))
                 (uint32 (Z.shiftl (at_ b 2) 11));
         Width := Width (frameHeader d1);
         Height := Height (frameHeader d1);
         XScale := XScale (frameHeader d1);
         YScale := YScale (frameHeader d1) |}).
  { rewrite Hfh. intros (_ & _ & HW & HH & HX & HY).
    unfold fields_ok, at_. cbn [VersionNumber FirstPartitionLen Width Height
                                 XScale YScale].
    repeat split; try apply version_range;
      try apply first_partition_len_range; tauto. }
  destruct (Z.land (at_ b 0) 1 =? 0); cbn [negb].
  2:{ intros H; inversion H; subst; clear H.
      cbn [img fp op frameHeader set_frameHeader].
      six_parts; try assumption; try congruence. }
  match goal with
  | |- context [read_scratch ?x 7] =>
    pose proof (read_scratch_frame x 7) as H2;
    destruct (read_scratch x 7) as [[b' e'] d2]
  end.
  cbv zeta in H2; cbn [snd] in H2.
  cbn [frameHeader img fp op set_frameHeader] in H2.
  destruct H2 as (Hfh2 & _ & _ & Him2 & Hfp2 & Hop2).
  destruct e' as [e'|].
  { intros H; inversion H; subst; clear H.
    rewrite Hfh2, Him2, Hfp2, Hop2.
    six_parts; try assumption; try congruence. }
  destruct (negb _ || negb _ || negb _).
  { intros H; inversion H; subst; clear H.
    rewrite Hfh2, Him2, Hfp2, Hop2.
    six_parts; try assumption; try congruence. }
  intros H; inversion H; subst; clear H.
  cbn [img fp op frameHeader set_frameHeader set_mb].
  rewrite Him2, Hfp2, Hop2.
  six_parts; try assumption; try congruence.
  intros Hok. specialize (Hfirst Hok). unfold fields_ok in Hfirst |- *.
  cbn [VersionNumber FirstPartitionLen Width Height XScale YScale]
    in Hfirst |- *.
  destruct Hfirst as (HV & HL & _). unfold at_.
  repeat split; try apply size_range; try apply scale_range; tauto.
Qed.

(** X6: a header call that fails returns the zero header, not the fields
    it has decoded so far; one that succeeds returns the header the
    decoder now stores; and no header call touches the image or the
    partitions. *)
Theorem DecodeFrameHeader_returned_header d fh err d' :
  DecodeFrameHeader d = (fh, err, d') ->
  (err = None -> fh = frameHeader d')
  /\ (err <> None -> fh = FrameHeader_zero)
  /\ img d' = img d /\ fp d' = fp d /\ op d' = op d.
Proof.
  intros Hrun.
  destruct (DecodeFrameHeader_shape d fh err d' Hrun)
    as (Him & Hfp & Hop & Hok & Hbad & _).
  repeat split; assumption.
Qed.
End HeaderShape.

Lemma DecodeFrameHeader_returned_header_witness :
  fst (fst (DecodeFrameHeader (fresh key_bad_sync 10))) = FrameHeader_zero.
Proof.
  pose proof (DecodeFrameHeader_returned_header
                (fresh key_bad_sync 10)
                (fst (fst (DecodeFrameHeader (fresh key_bad_sync 10))))
                (snd (fst (DecodeFrameHeader (fresh key_bad_sync 10))))
                (snd (DecodeFrameHeader (fresh key_bad_sync 10)))
                eq_refl) as H.
  destruct H as (_ & H & _). apply H. discriminate.
Defined.

(** ** The decoder between calls *)

Lemma advanced_refl (lr : limitReader.t) : advanced lr lr 0.
Proof.
  unfold advanced. cbn [skipn]. repeat split; lia.
Qed.

Lemma advanced_trans (a b c : limitReader.t) (k1 k2 : nat) :
  advanced a b k1 -> advanced b c k2 -> advanced a c (k1 + k2).
Proof.
  intros (Hr1 & Hn1 & Hl1 & Hb1) (Hr2 & Hn2 & Hl2 & Hb2).
  unfold advanced. rewrite Hr2, Hr1, skipn_skipn, Hn2, Hn1.
  rewrite Hr1, length_skipn in Hl2. rewrite Hn1 in Hb2.
  rewrite (Nat.add_comm k2 k1). repeat split; lia.
Qed.

(** Every read advances the reader, by no more than it was asked for. *)
Lemma ReadFull_advanced (lr : limitReader.t) (p : list byte) :
  exists k, advanced lr (snd (limitReader.ReadFull lr p)) k
            /\ (k <= length p)%nat.
Proof.
  rewrite ReadFull_reader.
  destruct (Z.ltb_spec (limitReader.n lr) (Z.of_nat (length p))).
  - exists 0%nat. split; [apply advanced_refl | lia].
  - exists (Nat.min (length p) (length (limitReader.r lr))).
    unfold advanced. cbn [limitReader.r limitReader.n].
    repeat split; try lia.
    destruct (Nat.le_ge_cases (length p) (length (limitReader.r lr))).
    + now rewrite Nat.min_l.
    + rewrite Nat.min_r by assumption. now rewrite !skipn_all2 by lia.
Qed.

Section BetweenCalls.
Context {partition : Type} {partition_ops : partition.ops partition}.
Implicit Type d : Decoder partition.

(** [ensureImg] changes the image at most. *)
Lemma ensureImg_frame st d st1 d1 :
  ensureImg st d = Some (st1, d1) -> exists x, d1 = set_img d x.
Proof.
  unfold ensureImg. destruct (covers d).
  - intros H; inversion H; subst. exists (img d1). now destruct d1.
  - destruct (make _ _) as [[st2 buf]|]; [|discriminate].
    destruct (reslice _ _ _); [|discriminate].
    destruct (reslice _ _ _); [|discriminate].
    destruct (reslice _ _ _); [|discriminate].
    intros H; inversion H; subst. eauto.
Qed.

(** [parseOtherHeaders] changes the reader and the first partition only,
    and its reader is that of the one read it makes. *)
Lemma parseOtherHeaders_frame d :
  let d' := snd (parseOtherHeaders d) in
  frameHeader d' = frameHeader d /\ mbw d' = mbw d /\ mbh d' = mbh d
  /\ img d' = img d /\ op d' = op d /\ scratch d' = scratch d
  /\ r d' = snd (limitReader.ReadFull (r d)
                   (repeat Byte.x00
                      (Z.to_nat (FirstPartitionLen (frameHeader d))))).
Proof.
  unfold parseOtherHeaders.
  destruct (limitReader.ReadFull _ _) as [[b e] lr].
  destruct e as [e|]; [cbn; tauto|].
  cbn [frameHeader set_fp set_r fp].
  destruct (KeyFrame (frameHeader d)); cbn [fp set_fp];
    match goal with
    | |- context [partition.unexpectedEOF ?p] =>
      destruct (partition.unexpectedEOF p)
    end; cbn; tauto.
Qed.

(** [DecodeFrame], step by step, for any call that does not panic. *)
Lemma DecodeFrame_steps st d res e st' d' :
  DecodeFrame st d = Some (res, e, st', d') ->
  exists m,
    ensureImg st d = Some (st', set_img d (Some m))
    /\ d' = set_img (snd (parseOtherHeaders d)) (Some m)
    /\ e = fst (parseOtherHeaders d)
    /\ res = match e with Some _ => None | None => Some m end.
Proof.
  intros Hrun.
  destruct (ensureImg st d) as [[st1 d1]|] eqn:Hen.
  2:{ unfold DecodeFrame in Hrun. rewrite Hen in Hrun. discriminate. }
  destruct (ensureImg_frame st d st1 d1 Hen) as (x & ->).
  assert (Hx : exists m, x = Some m).
  { unfold ensureImg in Hen. destruct (covers d) eqn:Hcov.
    - inversion Hen as [[Hst Hd]]. unfold covers in Hcov.
      destruct (img d) as [m|] eqn:Him; [|discriminate].
      exists m. apply (f_equal img) in Hd. cbn [img set_img] in Hd.
      congruence.
    - destruct (make _ _) as [[st2 buf]|]; [|discriminate].
      destruct (reslice _ _ _); [|discriminate].
      destruct (reslice _ _ _); [|discriminate].
      destruct (reslice _ _ _); [|discriminate].
      inversion Hen; subst. eauto. }
  destruct Hx as (m & ->).
  rewrite (DecodeFrame_unfold st d st1 m Hen) in Hrun.
  exists m.
  destruct (fst (parseOtherHeaders d)) as [e0|];
    inversion Hrun; subst; repeat split; reflexivity.
Qed.
End BetweenCalls.

Section Invariant.
Context {partition : Type} {partition_ops : partition.ops partition}.
Implicit Type d : Decoder partition.

Lemma size_below_grid (w : Z) : w <= 16 * Z.shiftr (w + 0x0f) 4.
Proof.
  rewrite Z.shiftr_div_pow2 by lia. change (2 ^ 4) with 16.
  pose proof (Z.div_mod (w + 15) 16).
  pose proof (Z.mod_pos_bound (w + 15) 16). lia.
Qed.

(** What [ensureImg] does to a decoder that is in order: it does not
    panic, it allocates at most one array and touches no other, and it
    leaves an image that is in order and has room for the grid. *)
Lemma ensureImg_ok st d :
  decoder_ok st d ->
  exists st' m,
    ensureImg st d = Some (st', set_img d (Some m))
    /\ image_ok st' m
    /\ holds_grid m (mbw d) (mbh d)
    /\ (st' = st /\ img d = Some m \/ exists a, st' = st ++ [a]).
Proof.
  intros (Hf & Hg & Him).
  destruct (geometry_ok_grid d Hg) as (Hw & Hh).
  destruct (covers d) eqn:Hcov.
  - unfold covers in Hcov. destruct (img d) as [m|] eqn:Hm; [|discriminate].
    exists st, m. rewrite ensureImg_reuse by (unfold covers; now rewrite Hm).
    split; [f_equal; f_equal; clear - Hm; destruct d; cbn [img] in Hm;
            subst; reflexivity|].
    specialize (Him m eq_refl).
    split; [exact Him|]. split; [|left; split; reflexivity].
    destruct Him as (w & h & Hw0 & Hh0 & HYS & HCS & HlY & HlCb & HlCr
                     & _ & _ & _ & _ & _ & _ & _ & HX & HY).
    apply andb_prop in Hcov. destruct Hcov as [Hcov Hc4].
    apply andb_prop in Hcov. destruct Hcov as [Hcov Hc3].
    apply Z.leb_le in Hc3, Hc4.
    assert (mbw d <= w) by lia. assert (mbh d <= h) by lia.
    unfold holds_grid. rewrite HYS, HCS, HlY, HlCb, HlCr.
    repeat split; nia.
  - rewrite (ensureImg_fresh st d Hg Hcov).
    eexists _, _. split; [reflexivity|].
    destruct Hg as (HW & HH & Hmw & Hmh).
    pose proof (size_below_grid (Width (frameHeader d))).
    pose proof (size_below_grid (Height (frameHeader d))).
    rewrite <- Hmw, <- Hmh in *.
    split; [|split; [|right; eauto]].
    + exists (mbw d), (mbh d).
      cbn [ycbcr.Y ycbcr.Cb ycbcr.Cr ycbcr.YStride ycbcr.CStride ycbcr.Rect
           arr off len image.Min image.Max image.X image.Y].
      rewrite nth_error_app2, Nat.sub_diag by lia. cbn [nth_error].
      repeat split; lia.
    + unfold holds_grid.
      cbn [ycbcr.Y ycbcr.Cb ycbcr.Cr ycbcr.YStride ycbcr.CStride len].
      repeat split; nia.
Qed.

(** Arrays already in the store stay where they are when it grows. *)
Lemma image_ok_grow st a m : image_ok st m -> image_ok (st ++ [a]) m.
Proof.
  intros (w & h & H). exists w, h.
  destruct H as (? & ? & ? & ? & ? & ? & ? & ? & ? & ? & ? & ? & Hnth & ?).
  repeat split; try tauto.
  rewrite nth_error_app1; [exact Hnth|].
  apply nth_error_Some. congruence.
Qed.

Lemma decoder_ok_NewDecoder : decoder_ok [] (NewDecoder (partition := partition)).
Proof.
  split; [|split].
  - unfold fields_ok. cbn. lia.
  - apply geometry_ok_NewDecoder.
  - cbn. discriminate.
Qed.

Lemma decoder_ok_DecodeFrameHeader st d :
  decoder_ok st d -> decoder_ok st (snd (DecodeFrameHeader d)).
Proof.
  intros (Hf & Hg & Him).
  pose proof (geometry_ok_DecodeFrameHeader d Hg) as Hg'.
  destruct (DecodeFrameHeader d) as [[fh err] d'] eqn:Hrun. cbn [snd] in *.
  destruct (DecodeFrameHeader_shape d fh err d' Hrun)
    as (Himg & _ & _ & _ & _ & Hf').
  split; [auto | split; [assumption|]]. now rewrite Himg.
Qed.

Lemma decoder_ok_DecodeFrame st d res st' d' :
  decoder_ok st d -> DecodeFrame st d = Some (res, st', d') ->
  decoder_ok st' d'.
Proof.
  intros Hok Hrun. destruct res as [res e].
  destruct (DecodeFrame_steps st d res e st' d' Hrun)
    as (m & Hen & -> & _ & _).
  destruct (ensureImg_ok st d Hok) as (st1 & m1 & Hen1 & Him1 & _).
  rewrite Hen in Hen1. inversion Hen1; subst st1 m1.
  destruct (parseOtherHeaders_frame d) as (Hfh & Hmw & Hmh & _).
  destruct Hok as (Hf & Hg & _).
  split; [|split].
  - cbn [frameHeader set_img]. now rewrite Hfh.
  - unfold geometry_ok. cbn [frameHeader mbw mbh set_img].
    rewrite Hfh, Hmw, Hmh. exact Hg.
  - cbn [img set_img]. intros m' Hm'. inversion Hm'; subst. exact Him1.
Qed.

Lemma reachable_ok st d : reachable st d -> decoder_ok st d.
Proof.
  induction 1 as [| st d src n _ IH | st d _ IH | st d res st' d' _ IH Hrun].
  - apply decoder_ok_NewDecoder.
  - exact IH.
  - now apply decoder_ok_DecodeFrameHeader.
  - exact (decoder_ok_DecodeFrame st d res st' d' IH Hrun).
Qed.

(** X7: in every state a user can reach, on any input, the stored header
    is within the ranges of its fields (3-bit version, 19-bit length,
    14-bit sizes, 2-bit scales) and the macroblock grid is the stored size
    over 16, rounded up, at most 1024 either way. *)
Theorem reachable_header_in_range st d :
  reachable st d ->
  fields_ok (frameHeader d)
  /\ 16 * (mbw d - 1) < Width (frameHeader d) <= 16 * mbw d
  /\ 16 * (mbh d - 1) < Height (frameHeader d) <= 16 * mbh d
  /\ 0 <= mbw d <= 1024 /\ 0 <= mbh d <= 1024.
Proof.
  intros Hreach. destruct (reachable_ok st d Hreach) as (Hf & Hg & _).
  destruct (geometry_ok_grid d Hg) as (Hw & Hh).
  destruct Hg as (_ & _ & Hmw & Hmh).
  split; [exact Hf|]. rewrite Hmw, Hmh at 1 2.
  split; [apply shiftr_4_ceil|]. split; [apply shiftr_4_ceil|].
  split; assumption.
Qed.

(** X8: in every state a user can reach, [ensureImg] does not panic and
    leaves an image that is large enough for the frame, as its comment
    says: the strides cover a row of the macroblock grid, the planes cover
    its rows, and the planes are windows of one zeroed array of the
    store. *)
Theorem ensureImg_large_enough st d :
  reachable st d ->
  exists st' m,
    ensureImg st d = Some (st', set_img d (Some m))
    /\ holds_grid m (mbw d) (mbh d)
    /\ image_ok st' m.
Proof.
  intros Hreach.
  destruct (ensureImg_ok st d (reachable_ok st d Hreach))
    as (st' & m & Hen & Him & Hgrid & _).
  eauto.
Qed.

(** X9: in every state a user can reach, [DecodeFrame] does not panic; it
    returns either an image and no error, the image being the one the
    decoder then holds, or no image and an error; it leaves the header and
    the grid as they were; and it adds at most one array to the store,
    leaving those already there in place. *)
Theorem DecodeFrame_outcome st d :
  reachable st d ->
  exists res e st' d',
    DecodeFrame st d = Some (res, e, st', d')
    /\ (e = None -> res = img d' /\ res <> None)
    /\ (e <> None -> res = None)
    /\ frameHeader d' = frameHeader d /\ mbw d' = mbw d /\ mbh d' = mbh d
    /\ (st' = st \/ exists a, st' = st ++ [a]).
Proof.
  intros Hreach.
  destruct (ensureImg_ok st d (reachable_ok st d Hreach))
    as (st' & m & Hen & _ & _ & Hst).
  destruct (parseOtherHeaders_frame d) as (Hfh & Hmw & Hmh & _).
  rewrite (DecodeFrame_unfold st d st' m Hen).
  destruct (fst (parseOtherHeaders d)) as [e|];
    eexists _, _, _, _; (split; [reflexivity|]);
    cbn [img frameHeader mbw mbh set_img];
    (split; [|split; [|split; [|split; [|split]]]]);
    try assumption; try (intros; congruence);
    try (destruct Hst as [[-> _]|Hst]; [now left | now right]).
  intros _. split; [reflexivity | discriminate].
Qed.
End Invariant.

Lemma reachable_header_in_range_witness :
  fields_ok (frameHeader after_key_100x100)
  /\ 16 * (mbw after_key_100x100 - 1) < Width (frameHeader after_key_100x100)
     <= 16 * mbw after_key_100x100
  /\ 16 * (mbh after_key_100x100 - 1) < Height (frameHeader after_key_100x100)
     <= 16 * mbh after_key_100x100
  /\ 0 <= mbw after_key_100x100 <= 1024
  /\ 0 <= mbh after_key_100x100 <= 1024.
Proof.
  apply (reachable_header_in_range [] after_key_100x100).
  exact (reachable_DecodeFrameHeader _ _
           (reachable_Init _ _ key_100x100 10 reachable_new)).
Defined.

Lemma ensureImg_large_enough_witness :
  exists st' m,
    ensureImg [] after_key_100x100
    = Some (st', set_img after_key_100x100 (Some m))
    /\ holds_grid m (mbw after_key_100x100) (mbh after_key_100x100)
    /\ image_ok st' m.
Proof.
  apply (ensureImg_large_enough [] after_key_100x100).
  exact (reachable_DecodeFrameHeader _ _
           (reachable_Init _ _ key_100x100 10 reachable_new)).
Defined.

Lemma DecodeFrame_outcome_witness :
  exists res e st' d',
    DecodeFrame [] after_inter_len5 = Some (res, e, st', d')
    /\ (e = None -> res = img d' /\ res <> None)
    /\ (e <> None -> res = None)
    /\ frameHeader d' = frameHeader after_inter_len5
    /\ mbw d' = mbw after_inter_len5 /\ mbh d' = mbh after_inter_len5
    /\ (st' = [] \/ exists a, st' = [] ++ [a]).
Proof.
  apply (DecodeFrame_outcome [] after_inter_len5).
  exact (reachable_DecodeFrameHeader _ _
           (reachable_Init _ _ inter_len5 100 reachable_new)).
Defined.

(** ** The budget and the store over a run of calls *)

Section Runs.
Context {partition : Type} {partition_ops : partition.ops partition}.
Implicit Type d : Decoder partition.

Lemma ensureImg_store st d st1 d1 :
  ensureImg st d = Some (st1, d1) -> st1 = st \/ exists a, st1 = st ++ [a].
Proof.
  unfold ensureImg, make. destruct (covers d).
  - intros H; inversion H; subst. now left.
  - destruct (_ <? 0); [discriminate|].
    destruct (reslice _ _ _); [|discriminate].
    destruct (reslice _ _ _); [|discriminate].
    destruct (reslice _ _ _); [|discriminate].
    intros H; inversion H; subst. right. eauto.
Qed.

(** The reader after [DecodeFrame] is the reader after its one read. *)
Lemma DecodeFrame_reader st d res st' d' :
  DecodeFrame st d = Some (res, st', d') ->
  r d' = snd (limitReader.ReadFull (r d)
                (repeat Byte.x00
                   (Z.to_nat (FirstPartitionLen (frameHeader d))))).
Proof.
  destruct res as [res e]. intros Hrun.
  destruct (DecodeFrame_steps st d res e st' d' Hrun) as (m & _ & -> & _).
  cbn [r set_img]. apply parseOtherHeaders_frame.
Qed.

Lemma calls_advanced (s s' : Store * Decoder partition) :
  calls s s' ->
  (exists k, advanced (r (snd s)) (r (snd s')) k)
  /\ exists ext, fst s' = fst s ++ ext.
Proof.
  induction 1 as [s | st d s' _ IH | st d res st1 d1 s' Hrun _ IH].
  - split; [exists 0%nat; apply advanced_refl|].
    exists []. now rewrite app_nil_r.
  - destruct IH as ((k & Hk) & ext & Hext). cbn [fst snd] in *.
    split; [|eauto].
    destruct (DecodeFrameHeader_consumed d) as (H0 & _).
    eexists. exact (advanced_trans _ _ _ _ _ H0 Hk).
  - destruct IH as ((k & Hk) & ext & Hext). cbn [fst snd] in *.
    split.
    + pose proof (DecodeFrame_reader st d res st1 d1 Hrun) as Hr.
      destruct (ReadFull_advanced (r d)
                  (repeat Byte.x00
                     (Z.to_nat (FirstPartitionLen (frameHeader d)))))
        as (k0 & H0 & _).
      rewrite <- Hr in H0.
      eexists. exact (advanced_trans _ _ _ _ _ H0 Hk).
    + destruct res as [res e].
      destruct (DecodeFrame_steps st d res e st1 d1 Hrun) as (m & Hen & _).
      destruct (ensureImg_store _ _ _ _ Hen) as [-> | (a & ->)].
      * eauto.
      * exists ([a] ++ ext). now rewrite app_assoc.
Qed.

(** X10: [Init] binds the decoder to read at most [n] bytes: after any
    run of [DecodeFrameHeader] and [DecodeFrame] calls, on any input and
    whatever their outcomes, what is left of the source is the source
    without its first [k] bytes, the budget left is [n - k], and [k] is at
    most [n] (and 0 when [n] is negative). *)
Theorem Init_reads_at_most_n st d src n st' d' :
  calls (st, Init d src n) (st', d') ->
  exists k : nat,
    limitReader.r (r d') = skipn k src
    /\ limitReader.n (r d') = n - Z.of_nat k
    /\ (k <= length src)%nat
    /\ Z.of_nat k <= Z.max 0 n.
Proof.
  intros Hcalls. destruct (calls_advanced _ _ Hcalls) as ((k & Hk) & _).
  exists k. exact Hk.
Qed.


(** X12: a [DecodeFrame] that succeeds has taken exactly
    [FirstPartitionLen] bytes from the source; one that fails has taken
    none if the budget was short, and otherwise all that was left. *)
Theorem DecodeFrame_consumption st d res e st' d' :
  DecodeFrame st d = Some (res, e, st', d') ->
  let want := Z.to_nat (FirstPartitionLen (frameHeader d)) in
  let have := length (limitReader.r (r d)) in
  exists k : nat,
    advanced (r d) (r d') k
    /\ (e = None -> k = want)
    /\ (e <> None -> limitReader.n (r d) < Z.of_nat want -> k = 0%nat)
    /\ (e <> None -> Z.of_nat want <= limitReader.n (r d) ->
        (have < want)%nat -> k = have).
Proof.
  intros Hrun. cbv zeta.
  pose proof (DecodeFrame_reader st d (res, e) st' d' Hrun) as Hr.
  destruct (DecodeFrame_steps st d res e st' d' Hrun) as (m & _ & _ & He & _).
  set (p := repeat Byte.x00 (Z.to_nat (FirstPartitionLen (frameHeader d))))
    in *.
  assert (Hlen : length p = Z.to_nat (FirstPartitionLen (frameHeader d)))
    by apply repeat_length.
  rewrite <- Hlen.
  pose proof (ReadFull_reader (r d) p) as Hrd. rewrite <- Hr in Hrd.
  pose proof (ReadFull_error (r d) p) as Herr.
  destruct (Z.ltb_spec (limitReader.n (r d)) (Z.of_nat (length p))) as [Hn|Hn].
  - destruct (parseOtherHeaders_read_error d io_ErrUnexpectedEOF Herr)
      as (Hp & _).
    exists 0%nat. rewrite Hrd.
    split; [apply advanced_refl|].
    split; [intros ->; rewrite Hp in He; discriminate|].
    split; [reflexivity | lia].
  - destruct (Nat.leb_spec (length p) (length (limitReader.r (r d)))) as [Hs|Hs].
    + exists (length p). rewrite Hrd. unfold advanced.
      cbn [limitReader.r limitReader.n]. rewrite Nat.min_l by assumption.
      repeat split; try lia.
    + exists (length (limitReader.r (r d))). rewrite Hrd. unfold advanced.
      cbn [limitReader.r limitReader.n]. rewrite Nat.min_r by lia.
      rewrite skipn_all, skipn_all2 by lia.
      split; [repeat split; lia|].
      split; [|split; [lia | reflexivity]].
      intros ->.
      destruct (length (limitReader.r (r d)) =? 0)%nat;
        destruct (parseOtherHeaders_read_error d _ Herr) as (Hp & _);
        rewrite Hp in He; discriminate.
Qed.
End Runs.

Lemma Init_reads_at_most_n_witness :
  exists k : nat,
    limitReader.r (r (snd (DecodeFrameHeader (fresh key_bad_sync 10))))
    = skipn k key_bad_sync
    /\ limitReader.n (r (snd (DecodeFrameHeader (fresh key_bad_sync 10))))
       = 10 - Z.of_nat k
    /\ (k <= length key_bad_sync)%nat
    /\ Z.of_nat k <= Z.max 0 10.
Proof.
  apply (Init_reads_at_most_n [] NewDecoder key_bad_sync 10 []).
  apply calls_DecodeFrameHeader. apply calls_none.
Defined.


Lemma DecodeFrame_consumption_witness :
  exists res e st' d' (k : nat),
    DecodeFrame [] after_inter_len5 = Some (res, e, st', d')
    /\ advanced (r after_inter_len5) (r d') k.
Proof.
  destruct (DecodeFrame [] after_inter_len5) as [[[[res e] st'] d']|] eqn:H.
  - destruct (DecodeFrame_consumption [] after_inter_len5 res e st' d' H)
      as (k & Hk & _).
    exists res, e, st', d', k. split; [reflexivity | exact Hk].
  - vm_compute in H. discriminate H.
Defined.

(** ** When the buffer just allocated is kept *)

Section SecondCall.
Context {partition : Type} {partition_ops : partition.ops partition}.
Implicit Type d : Decoder partition.

(** X13: the image that [ensureImg] has just allocated passes the test of
    the next call, so that the next call allocates nothing, exactly when
    the stored width and height are both multiples of 16; otherwise the
    next call, with the same grid, allocates again. *)
Theorem ensureImg_kept_iff_aligned st d st' d' :
  geometry_ok d ->
  covers d = false ->
  ensureImg st d = Some (st', d') ->
  (covers d' = true
   <-> Width (frameHeader d) mod 16 = 0 /\ Height (frameHeader d) mod 16 = 0)
  /\ (covers d' = true -> ensureImg st' d' = Some (st', d'))
  /\ (covers d' = false ->
      exists a m, ensureImg st' d' = Some (st' ++ [a], set_img d' (Some m))).
Proof.
  intros Hok Hcov Hrun.
  rewrite (ensureImg_fresh st d Hok Hcov) in Hrun.
  inversion Hrun; subst st' d'; clear Hrun.
  assert (Hok' : forall x, geometry_ok (set_img d x)) by (intros; exact Hok).
  split; [|split].
  - unfold covers. cbn [img set_img mbw mbh].
    cbn [ycbcr.Rect image.Min image.Max image.X image.Y].
    destruct Hok as (HW & HH & -> & ->).
    rewrite !Z.shiftr_div_pow2 by lia. change (2 ^ 4) with 16.
    change (0 =? 0) with true. cbn [andb].
    rewrite andb_true_iff, !Z.leb_le.
    pose proof (Z.div_mod (Width (frameHeader d) + 15) 16).
    pose proof (Z.mod_pos_bound (Width (frameHeader d) + 15) 16).
    pose proof (Z.div_mod (Height (frameHeader d) + 15) 16).
    pose proof (Z.mod_pos_bound (Height (frameHeader d) + 15) 16).
    pose proof (Z.div_mod (Width (frameHeader d)) 16).
    pose proof (Z.mod_pos_bound (Width (frameHeader d)) 16).
    pose proof (Z.div_mod (Height (frameHeader d)) 16).
    pose proof (Z.mod_pos_bound (Height (frameHeader d)) 16).
    split.
    + intros [Hx Hy]. split; lia.
    + intros [Hx Hy].
      assert ((Width (frameHeader d) + 15) / 16 = Width (frameHeader d) / 16)
        by (symmetry; apply (Z.div_unique _ _ _ 15); lia).
      assert ((Height (frameHeader d) + 15) / 16 = Height (frameHeader d) / 16)
        by (symmetry; apply (Z.div_unique _ _ _ 15); lia).
      split; lia.
  - apply ensureImg_reuse.
  - intros Hcov'.
    rewrite (ensureImg_fresh _ _ (Hok' _) Hcov'). eauto.
Qed.
End SecondCall.

Lemma ensureImg_kept_iff_aligned_witness :
  covers (set_img after_key_100x100
            (img (snd (match ensureImg [] after_key_100x100 with
                       | Some x => x
                       | None => ([], after_key_100x100)
                       end)))) = true
  <-> Width (frameHeader after_key_100x100) mod 16 = 0
      /\ Height (frameHeader after_key_100x100) mod 16 = 0.
Proof.
  assert (Hok : geometry_ok after_key_100x100)
    by (repeat split; vm_compute; congruence).
  destruct (ensureImg [] after_key_100x100) as [[st' d']|] eqn:H.
  - destruct (ensureImg_kept_iff_aligned [] after_key_100x100 st' d' Hok
                eq_refl H) as (Hiff & _).
    cbn [snd].
    destruct (ensureImg_frame _ _ _ _ H) as (x & ->).
    cbn [img set_img] in *. exact Hiff.
  - vm_compute in H. discriminate H.
Defined.

(** ** The header determines its bytes *)

Lemma le_word3_inj (b0 b1 b2 c0 c1 c2 : byte) :
  le_word [b0; b1; b2] = le_word [c0; c1; c2] ->
  b0 = c0 /\ b1 = c1 /\ b2 = c2.
Proof.
  cbn [le_word]. change (2 ^ 8) with 256.
  pose proof (byte_range b0); pose proof (byte_range b1);
    pose proof (byte_range b2); pose proof (byte_range c0);
    pose proof (byte_range c1); pose proof (byte_range c2).
  intros Heq. repeat split; apply byte.unsigned_inj; lia.
Qed.

Lemma le_word2_inj (b0 b1 c0 c1 : byte) :
  le_word [b0; b1] = le_word [c0; c1] -> b0 = c0 /\ b1 = c1.
Proof.
  cbn [le_word]. change (2 ^ 8) with 256.
  pose proof (byte_range b0); pose proof (byte_range b1);
    pose proof (byte_range c0); pose proof (byte_range c1).
  intros Heq. split; apply byte.unsigned_inj; lia.
Qed.

(** The low five bits of byte 0, from the three fields they carry. *)
Lemma first_byte_low_bits (a : Z) :
  0 <= a ->
  a mod 32
  = (if Z.land a 1 =? 0 then 0 else 1)
    + 2 * Z.land (Z.shiftr a 1) 7
    + (if Z.land (Z.shiftr a 4) 1 =? 1 then 16 else 0).
Proof.
  intros Ha.
  rewrite land_1_is_0, land_1_is_1, !Z.bit0_odd. change 7 with (Z.ones 3).
  rewrite Z.land_ones, !Z.shiftr_div_pow2 by lia.
  change (2 ^ 1) with 2. change (2 ^ 3) with 8. change (2 ^ 4) with 16.
  pose proof (Zmod_odd a) as H0. pose proof (Zmod_odd (a / 16)) as H4.
  destruct (Z.odd a), (Z.odd (a / 16)); cbn [negb];
    Z.div_mod_to_equations; lia.
Qed.

(** The three bytes, from the four fields the code computes of them. *)
Lemma first_three_bytes_determined (b0 b1 b2 c0 c1 c2 : byte) :
  (Z.land (byte.unsigned b0) 1 =? 0) = (Z.land (byte.unsigned c0) 1 =? 0) ->
  Z.land (Z.shiftr (byte.unsigned b0) 1) 7
  = Z.land (Z.shiftr (byte.unsigned c0) 1) 7 ->
  (Z.land (Z.shiftr (byte.unsigned b0) 4) 1 =? 1)
  = (Z.land (Z.shiftr (byte.unsigned c0) 4) 1 =? 1) ->
  Z.lor (Z.lor (Z.shiftr (byte.unsigned b0) 5)
               (uint32 (Z.shiftl (byte.unsigned b1) 3)))
        (uint32 (Z.shiftl (byte.unsigned b2) 11))
  = Z.lor (Z.lor (Z.shiftr (byte.unsigned c0) 5)
                 (uint32 (Z.shiftl (byte.unsigned c1) 3)))
          (uint32 (Z.shiftl (byte.unsigned c2) 11)) ->
  b0 = c0 /\ b1 = c1 /\ b2 = c2.
Proof.
  intros Hk Hv Hs Hl. rewrite !first_partition_len_word in Hl.
  pose proof (first_byte_low_bits (byte.unsigned b0)
                (proj1 (byte_range b0))) as Hb.
  pose proof (first_byte_low_bits (byte.unsigned c0)
                (proj1 (byte_range c0))) as Hc.
  rewrite Hk, Hv, Hs, <- Hc in Hb.
  apply le_word3_inj.
  pose proof (byte_range b0); pose proof (byte_range c0).
  cbn [le_word] in *. change (2 ^ 8) with 256 in *.
  change (2 ^ 5) with 32 in *.
  rewrite !Z.mul_0_r, !Z.add_0_r in *.
  revert Hl Hb.
  generalize (byte.unsigned b1 + 256 * byte.unsigned b2).
  generalize (byte.unsigned c1 + 256 * byte.unsigned c2).
  intros y x Hl Hb. Z.div_mod_to_equations. lia.
Qed.

Section HeaderBytes.
Context {partition : Type} {partition_ops : partition.ops partition}.
Implicit Type d : Decoder partition.

(** A header parsed without error had its three bytes, within the
    budget. *)
Lemma DecodeFrameHeader_ok_inv d fh d' :
  DecodeFrameHeader d = (fh, None, d') ->
  exists b0 b1 b2 rest,
    limitReader.r (r d) = b0 :: b1 :: b2 :: rest
    /\ 3 <= limitReader.n (r d).
Proof.
  intros Hrun.
  pose proof (DecodeFrameHeader_error d) as Herr.
  rewrite Hrun in Herr. cbn [fst snd] in Herr. symmetry in Herr.
  apply header_error_None_inv in Herr. destruct Herr as (H3 & _).
  unfold avail in H3.
  destruct (limitReader.r (r d)) as [|b0 [|b1 [|b2 rest]]];
    try (cbn [length] in H3; lia).
  exists b0, b1, b2, rest. split; [reflexivity | lia].
Qed.

(** X14: the header determines the bytes it was parsed from: if two
    inputs are parsed without error to headers that agree on the key-frame
    flag, the version, the show-frame flag and the first-partition length
    and, for key frames, on the sizes and scales, then their first 3
    bytes, or first 10 for key frames, are the same. *)
Theorem DecodeFrameHeader_determines_bytes d1 d2 fh1 fh2 d1' d2' :
  DecodeFrameHeader d1 = (fh1, None, d1') ->
  DecodeFrameHeader d2 = (fh2, None, d2') ->
  KeyFrame fh1 = KeyFrame fh2 ->
  VersionNumber fh1 = VersionNumber fh2 ->
  ShowFrame fh1 = ShowFrame fh2 ->
  FirstPartitionLen fh1 = FirstPartitionLen fh2 ->
  (KeyFrame fh1 = true ->
   Width fh1 = Width fh2 /\ Height fh1 = Height fh2
   /\ XScale fh1 = XScale fh2 /\ YScale fh1 = YScale fh2) ->
  firstn (if KeyFrame fh1 then 10 else 3) (limitReader.r (r d1))
  = firstn (if KeyFrame fh1 then 10 else 3) (limitReader.r (r d2)).
Proof.
  intros Hrun1 Hrun2 Hk Hv Hs Hl Hgeo.
  destruct (DecodeFrameHeader_ok_inv d1 fh1 d1' Hrun1)
    as (b0 & b1 & b2 & rest1 & Hsrc1 & Hn1).
  destruct (DecodeFrameHeader_ok_inv d2 fh2 d2' Hrun2)
    as (c0 & c1 & c2 & rest2 & Hsrc2 & Hn2).
  destruct (DecodeFrameHeader_start d1 _ _ _ _ fh1 None d1' Hsrc1 Hn1 Hrun1)
    as (Hk1 & Hv1 & Hs1 & Hl1 & Hfh1).
  destruct (DecodeFrameHeader_start d2 _ _ _ _ fh2 None d2' Hsrc2 Hn2 Hrun2)
    as (Hk2 & Hv2 & Hs2 & Hl2 & Hfh2).
  cbv zeta in *.
  rewrite <- (Hfh1 eq_refl) in Hk1, Hv1, Hs1, Hl1.
  rewrite <- (Hfh2 eq_refl) in Hk2, Hv2, Hs2, Hl2.
  destruct (first_three_bytes_determined b0 b1 b2 c0 c1 c2)
    as (E0 & E1 & E2); try congruence.
  subst c0 c1 c2.
  destruct (KeyFrame fh1) eqn:Hkey.
  2:{ rewrite Hsrc1, Hsrc2. reflexivity. }
  destruct (Hgeo eq_refl) as (HW & HH & HX & HY).
  destruct (DecodeFrameHeader_key_inv d1 fh1 d1' Hrun1 Hkey)
    as (x0 & x1 & x2 & b3 & b4 & b5 & b6 & b7 & b8 & b9 & r1
        & Hs1' & Hn1' & Hbit1 & Hsync1).
  destruct (DecodeFrameHeader_key_inv d2 fh2 d2' Hrun2 ltac:(congruence))
    as (y0 & y1 & y2 & c3 & c4 & c5 & c6 & c7 & c8 & c9 & r2
        & Hs2' & Hn2' & Hbit2 & Hsync2).
  destruct (DecodeFrameHeader_key d1 _ _ _ _ _ _ _ _ _ _ _ Hs1' Hn1' Hbit1 Hsync1)
    as (f1 & e1 & Hr1 & _ & _ & HW1 & HH1 & HX1 & HY1 & _).
  destruct (DecodeFrameHeader_key d2 _ _ _ _ _ _ _ _ _ _ _ Hs2' Hn2' Hbit2 Hsync2)
    as (f2 & e2 & Hr2 & _ & _ & HW2 & HH2 & HX2 & HY2 & _).
  assert (f1 = fh1) by congruence. assert (f2 = fh2) by congruence.
  subst f1 f2.
  rewrite size_field in HW1, HH1, HW2, HH2.
  rewrite (scale_field b6 b7) in HX1. rewrite (scale_field b8 b9) in HY1.
  rewrite (scale_field c6 c7) in HX2. rewrite (scale_field c8 c9) in HY2.
  assert (Hw : le_word [b6; b7] = le_word [c6; c7]).
  { rewrite (Z.div_mod (le_word [b6; b7]) (2 ^ 14)),
            (Z.div_mod (le_word [c6; c7]) (2 ^ 14)) by lia.
    congruence. }
  assert (Hh : le_word [b8; b9] = le_word [c8; c9]).
  { rewrite (Z.div_mod (le_word [b8; b9]) (2 ^ 14)),
            (Z.div_mod (le_word [c8; c9]) (2 ^ 14)) by lia.
    congruence. }
  destruct (le_word2_inj _ _ _ _ Hw) as (-> & ->).
  destruct (le_word2_inj _ _ _ _ Hh) as (-> & ->).
  unfold sync_ok in Hsync1, Hsync2. rewrite Hs1' in Hsync1.
  rewrite Hs2' in Hsync2. cbv [at_ nth] in Hsync1, Hsync2.
  apply andb_prop in Hsync1, Hsync2.
  destruct Hsync1 as [Hsync1 H5], Hsync2 as [Hsync2 H5'].
  apply andb_prop in Hsync1, Hsync2.
  destruct Hsync1 as [H3 H4], Hsync2 as [H3' H4'].
  apply Z.eqb_eq in H3, H4, H5, H3', H4', H5'.
  assert (b3 = c3) by (apply byte.unsigned_inj; congruence).
  assert (b4 = c4) by (apply byte.unsigned_inj; congruence).
  assert (b5 = c5) by (apply byte.unsigned_inj; congruence).
  subst c3 c4 c5.
  rewrite Hs1' in Hsrc1. rewrite Hs2' in Hsrc2.
  inversion Hsrc1; inversion Hsrc2; subst.
  rewrite Hs1', Hs2'. reflexivity.
Qed.
End HeaderBytes.

Lemma DecodeFrameHeader_determines_bytes_witness :
  firstn 10 (key_176x144 ++ [Byte.x01]) = firstn 10 (key_176x144 ++ [Byte.x02]).
Proof.
  exact (DecodeFrameHeader_determines_bytes
           (fresh (key_176x144 ++ [Byte.x01]) 11)
           (fresh (key_176x144 ++ [Byte.x02]) 10)
           (fst (fst (DecodeFrameHeader (fresh (key_176x144 ++ [Byte.x01]) 11))))
           (fst (fst (DecodeFrameHeader (fresh (key_176x144 ++ [Byte.x02]) 10))))
           (snd (DecodeFrameHeader (fresh (key_176x144 ++ [Byte.x01]) 11)))
           (snd (DecodeFrameHeader (fresh (key_176x144 ++ [Byte.x02]) 10)))
           eq_refl eq_refl eq_refl eq_refl eq_refl eq_refl
           (fun _ => conj eq_refl (conj eq_refl (conj eq_refl eq_refl)))).
Defined.

(** ** An image that passes the test is handed out again *)

Section Reuse.
Context {partition : Type} {partition_ops : partition.ops partition}.
Implicit Type d : Decoder partition.

(** X15: when the image the decoder holds passes the test of [ensureImg],
    [DecodeFrame] allocates nothing and, unless it fails, returns that
    very image, with the rectangle and the strides it was given when it
    was allocated, whatever size the header stores now. *)
Theorem DecodeFrame_hands_out_held_image st d m :
  img d = Some m ->
  covers d = true ->
  exists e d',
    DecodeFrame st d
    = Some (match e with Some _ => None | None => Some m end, e, st, d')
    /\ img d' = Some m.
Proof.
  intros Him Hcov.
  assert (Hen : ensureImg st d = Some (st, set_img d (Some m))).
  { rewrite (ensureImg_reuse st d Hcov). f_equal. f_equal.
    clear - Him. destruct d. cbn [img] in Him. subst. reflexivity. }
  rewrite (DecodeFrame_unfold st d st m Hen).
  exists (fst (parseOtherHeaders d)), (set_img (snd (parseOtherHeaders d)) (Some m)).
  split; [|reflexivity].
  destruct (fst (parseOtherHeaders d)); reflexivity.
Qed.
End Reuse.

Lemma DecodeFrame_hands_out_held_image_witness :
  exists m e d',
    img (snd smaller_after_larger) = Some m
    /\ image.Max (ycbcr.Rect m) = {| image.X := 176; image.Y := 144 |}
    /\ Width (frameHeader (snd smaller_after_larger)) = 160
    /\ DecodeFrame (fst smaller_after_larger) (snd smaller_after_larger)
       = Some (match e with Some _ => None | None => Some m end, e,
               fst smaller_after_larger, d')
    /\ img d' = Some m.
Proof.
  destruct (img (snd smaller_after_larger)) as [m|] eqn:Him.
  2:{ vm_compute in Him. discriminate Him. }
  destruct (DecodeFrame_hands_out_held_image
              (fst smaller_after_larger) (snd smaller_after_larger) m Him)
    as (e & d' & Hrun & Him').
  { vm_compute. reflexivity. }
  exists m, e, d'. split; [reflexivity|].
  split; [vm_compute in Him; inversion Him; reflexivity|].
  split; [vm_compute; reflexivity|]. split; assumption.
Defined.

(** ** The scratch array is only a temporary *)

Section ScratchSection.
Context {partition : Type} {partition_ops : partition.ops partition}.
Implicit Type d : Decoder partition.

(** X16: what the scratch array holds before a header call has no effect
    on the call: the header and error returned, and the decoder left
    behind less its scratch array, are the same for any initial
    contents; a short read never lets stale scratch bytes into the
    header. *)
Theorem DecodeFrameHeader_ignores_scratch d (s : Scratch) :
  fst (DecodeFrameHeader (set_scratch d s)) = fst (DecodeFrameHeader d)
  /\ without_scratch (snd (DecodeFrameHeader (set_scratch d s)))
     = without_scratch (snd (DecodeFrameHeader d)).
Proof.
  unfold without_scratch, DecodeFrameHeader, read_scratch.
  destruct d as [[src n] im w h fh p ops s0].
  cbn [r scratch set_scratch limitReader.r limitReader.n].
  unfold limitReader.ReadFull, io_ReadFull.
  rewrite !length_scratch_to. cbn [limitReader.r limitReader.n].
  change (Z.of_nat 3) with 3.
  destruct (Z.ltb_spec n 3); [split; reflexivity|].
  destruct src as [|b0 [|b1 [|b2 src]]]; try (split; reflexivity).
  cbn [firstn length Nat.eqb skipn app fst snd].
  cbv [at_ nth]. cbn [KeyFrame set_frameHeader set_scratch set_r r scratch
                      frameHeader limitReader.r limitReader.n].
  destruct (Z.land (byte.unsigned b0) 1 =? 0); cbn [negb];
    [|split; reflexivity].
  rewrite !length_scratch_to. change (Z.of_nat 3) with 3.
  change (Z.of_nat 7) with 7.
  destruct (Z.ltb_spec (n - 3) 7); [split; reflexivity|].
  destruct src as [|b3 [|b4 [|b5 [|b6 [|b7 [|b8 [|b9 src]]]]]]];
    try (split; reflexivity).
  cbn [firstn length Nat.eqb skipn app fst snd nth].
  destruct (negb _ || negb _ || negb _); split; reflexivity.
Qed.
End ScratchSection.
